(** * Foster engine: geometry values, object lists, colliders and the physics mover

    A shallow embedding of the parts of the Foster 2D engine that its
    specification talks about: [Calc], [Matrix], [Rectangle], [Color],
    [ObjectList], the [Collider] overlap registry with [Hitbox], and the
    [Physics] mover.

    Numbers.  A JavaScript number is modelled as an exact rational in
    canonical form ([Qc]), so that equality of numbers is Leibniz equality.
    Rounding of binary64 (and of the [Float32Array] behind [Matrix]), NaN,
    the infinities and signed zero are outside the model; [Binary64] holds
    a few machine-number checks of where that matters.  An argument that a
    caller may leave out is an [option]: [None] is [undefined].

    Objects that the engine updates in place (colors, entities,
    colliders) live in a store and are named by a reference; game
    callbacks are opaque, and a call of one is recorded in a log. *)

From Stdlib Require Import QArith Qcanon Qround Lqa ZArith PrimFloat.
From stdpp Require Import gmap strings list.

Open Scope Qc_scope.

(** ** Numbers *)

Module Js.

Definition zero : Qc := Q2Qc 0.
Definition half : Qc := Q2Qc (1 # 2).
Definition of_Z (z : Z) : Qc := Q2Qc (inject_Z z).

(** [Math.max], [Math.min], [Math.abs] *)
Definition max (a b : Qc) : Qc := if decide (a < b) then b else a.
Definition min (a b : Qc) : Qc := if decide (b < a) then b else a.
Definition abs (a : Qc) : Qc := if decide (a < zero) then - a else a.

(** [Math.floor], and the integer part kept by the remainder operator,
    which truncates toward zero. *)
Definition floor (a : Qc) : Z := Qfloor a.
Definition trunc (a : Qc) : Z := Z.quot (Qnum a) (Zpos (Qden a)).

(** [Math.round]: the nearest integer, halves go up. *)
Definition round (a : Qc) : Qc := of_Z (floor (a + half)).

(** [a % b]: the remainder has the sign of the dividend. *)
Definition rem (a b : Qc) : Qc := a - b * of_Z (trunc (a / b)).

(** [v || d] on a number that may be missing: [undefined] and [0] are
    falsy. *)
Definition or_default (v : option Qc) (d : Qc) : Qc :=
  match v with
  | None => d
  | Some n => if decide (n = zero) then d else n
  end.

(** [array.indexOf(x)] *)
Fixpoint index_of {A : Type} `{EqDecision A} (x : A) (l : list A) : option nat :=
  match l with
  | [] => None
  | y :: l' => if decide (y = x) then Some 0%nat else S <$> index_of x l'
  end.

End Js.

(** The same arithmetic on binary64 values, to compare the rational
    model with the machine numbers at a few concrete values. *)

Module Binary64.

(** [speed * Engine.delta] at 30 units per second and a sixtieth of a
    second. *)
Definition tick_amount : float := (30 * (1 / 60))%float.

(** [x += d] followed by [x -= d]. *)
Definition there_and_back (x d : float) : float := ((x + d) - d)%float.

End Binary64.

(** ** Calc *)

Module Calc.

Definition sign (n : Qc) : Qc :=
  if decide (n < Js.zero) then - 1 else if decide (Js.zero < n) then 1 else Js.zero.

Definition clamp (n lo hi : Qc) : Qc := Js.max lo (Js.min hi n).

(** [Calc.approach(n, target, step)] *)
Definition approach (n target step : Qc) : Qc :=
  if decide (target < n) then Js.max (n - step) target else Js.min (n + step) target.

End Calc.

(** ** Matrix *)

Module Matrix.

(** The nine cells of [this.mat], in index order. *)
Record t := Mk {
  m0 : Qc; m1 : Qc; m2 : Qc;
  m3 : Qc; m4 : Qc; m5 : Qc;
  m6 : Qc; m7 : Qc; m8 : Qc
}.

#[global] Instance t_eq_dec : EqDecision t.
Proof. solve_decision. Defined.

Definition identity : t := Mk 1 Js.zero Js.zero Js.zero 1 Js.zero Js.zero Js.zero 1.

Definition fromScale (x y : Qc) : t :=
  Mk x Js.zero Js.zero Js.zero y Js.zero Js.zero Js.zero 1.

Definition fromTranslation (x y : Qc) : t :=
  Mk 1 Js.zero Js.zero Js.zero 1 Js.zero x y 1.

Definition scaler (this : t) (s : Qc) : t :=
  Mk (m0 this * s) (m1 this * s) (m2 this * s)
     (m3 this * s) (m4 this * s) (m5 this * s)
     (m6 this * s) (m7 this * s) (m8 this * s).


Definition multiply (this o : t) : t :=
  let a00 := m0 this in let a01 := m1 this in let a02 := m2 this in
  let a10 := m3 this in let a11 := m4 this in let a12 := m5 this in
  let a20 := m6 this in let a21 := m7 this in let a22 := m8 this in
  let b00 := m0 o in let b01 := m1 o in let b02 := m2 o in
  let b10 := m3 o in let b11 := m4 o in let b12 := m5 o in
  let b20 := m6 o in let b21 := m7 o in let b22 := m8 o in
  Mk (b00 * a00 + b01 * a10 + b02 * a20)
     (b00 * a01 + b01 * a11 + b02 * a21)
     (b00 * a02 + b01 * a12 + b02 * a22)
     (b10 * a00 + b11 * a10 + b12 * a20)
     (b10 * a01 + b11 * a11 + b12 * a21)
     (b10 * a02 + b11 * a12 + b12 * a22)
     (b20 * a00 + b21 * a10 + b22 * a20)
     (b20 * a01 + b21 * a11 + b22 * a21)
     (b20 * a02 + b21 * a12 + b22 * a22).



(** [this.set(a, b, c, d, tx, ty)] *)
Definition set (_ : t) (a b c d tx ty : Qc) : t :=
  Mk a d Js.zero c b Js.zero tx ty 1.

Definition add (this o : t) : t :=
  Mk (m0 this + m0 o) (m1 this + m1 o) (m2 this + m2 o)
     (m3 this + m3 o) (m4 this + m4 o) (m5 this + m5 o)
     (m6 this + m6 o) (m7 this + m7 o) (m8 this + m8 o).

Definition sub (this o : t) : t :=
  Mk (m0 this - m0 o) (m1 this - m1 o) (m2 this - m2 o)
     (m3 this - m3 o) (m4 this - m4 o) (m5 this - m5 o)
     (m6 this - m6 o) (m7 this - m7 o) (m8 this - m8 o).

(** [this.scale(x, y)]: the first six cells. *)
Definition scale (this : t) (x y : Qc) : t :=
  Mk (x * m0 this) (x * m1 this) (x * m2 this)
     (y * m3 this) (y * m4 this) (y * m5 this)
     (m6 this) (m7 this) (m8 this).

(** [this.translate(x, y)]: the last three cells. *)
Definition translate (this : t) (x y : Qc) : t :=
  let a00 := m0 this in let a01 := m1 this in let a02 := m2 this in
  let a10 := m3 this in let a11 := m4 this in let a12 := m5 this in
  let a20 := m6 this in let a21 := m7 this in let a22 := m8 this in
  Mk a00 a01 a02 a10 a11 a12
     (x * a00 + y * a10 + a20)
     (x * a01 + y * a11 + a21)
     (x * a02 + y * a12 + a22).


End Matrix.

(** ** Rectangle *)

Module Rectangle.

Record t := Mk { x : Qc; y : Qc; width : Qc; height : Qc }.

#[global] Instance t_eq_dec : EqDecision t.
Proof. solve_decision. Defined.

Definition left (r : t) : Qc := x r.
Definition right (r : t) : Qc := x r + width r.
Definition top (r : t) : Qc := y r.
Definition bottom (r : t) : Qc := y r + height r.

(** [new Rectangle(x, y, w, h)] *)
Definition new (x y w h : option Qc) : t :=
  Mk (Js.or_default x Js.zero) (Js.or_default y Js.zero)
     (Js.or_default w 1) (Js.or_default h 1).

Definition set (_ : t) (x y w h : Qc) : t := Mk x y w h.

Definition set_x (r : t) (v : Qc) : t := Mk v (y r) (width r) (height r).
Definition set_y (r : t) (v : Qc) : t := Mk (x r) v (width r) (height r).
Definition set_width (r : t) (v : Qc) : t := Mk (x r) (y r) v (height r).
Definition set_height (r : t) (v : Qc) : t := Mk (x r) (y r) (width r) v.

(** [this.cropRect(r)] is six guarded assignments on [r], run in this
    order.  The second guard compares [r.y] with [this.x], as the source
    does. *)
Definition crop_left (this r : t) : t :=
  if decide (x r < x this)
  then set_x (set_width r (width r + (x r - x this))) (x this) else r.
Definition crop_top (this r : t) : t :=
  if decide (y r < x this)
  then set_y (set_height r (height r + (y r - y this))) (y this) else r.
Definition crop_past_right (this r : t) : t :=
  if decide (right this < x r)
  then set_width (set_x r (right this)) Js.zero else r.
Definition crop_past_bottom (this r : t) : t :=
  if decide (bottom this < y r)
  then set_height (set_y r (bottom this)) Js.zero else r.
Definition crop_right (this r : t) : t :=
  if decide (right this < right r)
  then set_width r (right this - x r) else r.
Definition crop_bottom (this r : t) : t :=
  if decide (bottom this < bottom r)
  then set_height r (bottom this - y r) else r.

Definition cropRect (this r : t) : t :=
  let r := crop_left this r in
  let r := crop_top this r in
  let r := crop_past_right this r in
  let r := crop_past_bottom this r in
  let r := crop_right this r in
  let r := crop_bottom this r in
  r.

(** [this.crop(x, y, w, h)] with no [ref]: a fresh rectangle is set and
    cropped. *)
Definition crop (this : t) (x y w h : Qc) : t :=
  cropRect this (set (new None None None None) x y w h).

(** A rectangle lies within another one. *)
Definition within (r this : t) : Prop :=
  left this <= left r /\ right r <= right this /\
  top this <= top r /\ bottom r <= bottom this.

End Rectangle.

(** ** Color *)

(** Colors are objects that their methods update in place and hand back,
    so they live in a heap and are named by a reference. *)

Module Color.

(** The four cells of [this.color], in index order. *)
Record t := Mk { r : Qc; g : Qc; b : Qc; a : Qc }.

#[global] Instance t_eq_dec : EqDecision t.
Proof. solve_decision. Defined.

Abbreviation heap := (gmap nat t).

(** The body shared by the four setters. *)
Definition channel (v : Qc) : Qc := Js.min 1 (Js.max Js.zero v).

Definition set_r (c : t) (v : Qc) : t := Mk (channel v) (g c) (b c) (a c).
Definition set_g (c : t) (v : Qc) : t := Mk (r c) (channel v) (b c) (a c).
Definition set_b (c : t) (v : Qc) : t := Mk (r c) (g c) (channel v) (a c).
Definition set_a (c : t) (v : Qc) : t := Mk (r c) (g c) (b c) (channel v).

(** Every component lies in the unit interval: what the setters keep. *)
Definition valid (c : t) : Prop :=
  Js.zero <= r c <= 1 /\ Js.zero <= g c <= 1 /\
  Js.zero <= b c <= 1 /\ Js.zero <= a c <= 1.

(** Every color of the heap is [valid]. *)
Definition all_valid (h : heap) : Prop := forall l c, h !! l = Some c -> valid c.

(** [new Color(r, g, b, a)]: a fresh object. *)
Definition new (r g b a : option Qc) (h : heap) : nat * heap :=
  let l := fresh (dom h) in
  let c := Mk Js.zero Js.zero Js.zero 1 in
  let c := set_r c (Js.or_default r Js.zero) in
  let c := set_g c (Js.or_default g Js.zero) in
  let c := set_b c (Js.or_default b Js.zero) in
  let c := set_a c (Js.or_default a 1) in
  (l, <[l := c]> h).

(** [this.set(r, g, b, a)]: returns [this]. *)
Definition set (this : nat) (r g b a : Qc) (h : heap) : option (nat * heap) :=
  match h !! this with
  | None => None
  | Some c =>
      let c := set_r c r in
      let c := set_g c g in
      let c := set_b c b in
      let c := set_a c a in
      Some (this, <[this := c]> h)
  end.

(** [this.copy(color)]: returns [this]. *)
Definition copy (this color : nat) (h : heap) : option (nat * heap) :=
  match h !! color with
  | None => None
  | Some o => set this (r o) (g o) (b o) (a o) h
  end.

(** [this.clone()]: [new Color().copy(this)]. *)
Definition clone (this : nat) (h : heap) : option (nat * heap) :=
  let '(l, h) := new None None None None h in copy l this h.

(** [this.mult(alpha)]: [this.set(this.r, this.g, this.b, this.a * alpha)]. *)
Definition mult (this : nat) (alpha : Qc) (h : heap) : option (nat * heap) :=
  match h !! this with
  | None => None
  | Some c => set this (r c) (g c) (b c) (a c * alpha) h
  end.

(** One assignment through a setter of the object at [this]. *)
Definition assign (this : nat) (f : t -> t) (h : heap) : option heap :=
  match h !! this with
  | None => None
  | Some c => Some (<[this := f c]> h)
  end.

(** [this.lerp(a, b, p)]: four assignments, each reading [a] and [b] as
    they are at that point; returns [this]. *)
Definition lerp (this a b : nat) (p : Qc) (h : heap) : option (nat * heap) :=
  ca ← h !! a; cb ← h !! b;
  h ← assign this (fun c => set_r c (r ca + (r cb - r ca) * p)) h;
  ca ← h !! a; cb ← h !! b;
  h ← assign this (fun c => set_g c (g ca + (g cb - g ca) * p)) h;
  ca ← h !! a; cb ← h !! b;
  h ← assign this (fun c => set_b c (Color.b ca + (Color.b cb - Color.b ca) * p)) h;
  ca ← h !! a; cb ← h !! b;
  h ← assign this (fun c => set_a c (Color.a ca + (Color.a cb - Color.a ca) * p)) h;
  Some (this, h).

Definition white : t := Mk 1 1 1 1.

End Color.

(** ** ObjectList *)

Module ObjectList.

Section Ops.

Context {T : Type} `{EqDecision T}.

(** A slot is an object or [null]. *)
Record t := Mk {
  objects : list (option T);
  unsorted : bool;
  dirty : bool;
  _count : Z
}.

(** A list as its field initialisers leave it; the two flags start out
    [undefined], which is falsy. *)
Definition new : t := Mk [] false false 0.

Definition count (l : t) : Z := _count l.

(** [this.objects.indexOf(object)] *)
Fixpoint indexOf (o : option T) (l : list (option T)) : option nat :=
  match l with
  | [] => None
  | s :: l' => if decide (s = o) then Some 0%nat else S <$> indexOf o l'
  end.

Definition add (this : t) (object : option T) : t :=
  Mk (objects this ++ [object]) true (dirty this) (_count this + 1).

Definition contains (this : t) (object : option T) : bool :=
  match object with
  | None => false
  | Some _ => bool_decide (is_Some (indexOf object (objects this)))
  end.

(** [this.remove(object)]: the list afterwards and the returned flag. *)
Definition remove (this : t) (object : option T) : t * bool :=
  match indexOf object (objects this) with
  | Some index =>
      (Mk (<[index := None]> (objects this)) (unsorted this) true (_count this - 1), true)
  | None => (this, false)
  end.

Definition clear (this : t) : t :=
  Mk (replicate (length (objects this)) None) (unsorted this) true 0.

(** The inner [while] of [sort]: the object at [j] moves down while its
    lower neighbour is an object that compares greater. *)
Fixpoint sift (compare : T -> T -> Qc) (j : nat) (l : list (option T)) : list (option T) :=
  match j with
  | O => l
  | S j' =>
      match l !! j', l !! j with
      | Some (Some lo), Some (Some hi) =>
          if decide (Js.zero < compare lo hi)
          then sift compare j' (<[j := Some lo]> (<[j' := Some hi]> l))
          else l
      | _, _ => l
      end
  end.

Definition sort (this : t) (compare : T -> T -> Qc) : t :=
  if unsorted this then
    Mk (foldl (fun l i => sift compare (i + 1) l) (objects this)
              (seq 0 (length (objects this) - 1)))
       false (dirty this) (_count this)
  else this.

(** The downward [for] of [clean]: a [null] slot is spliced out. *)
Definition splice_nulls (l : list (option T)) : list (option T) :=
  foldl (fun l i => match l !! i with
                    | Some None => delete i l
                    | _ => l
                    end)
        l (rev (seq 0 (length l))).

Definition clean (this : t) : t :=
  if dirty this then
    if decide (count this <= 0)%Z
    then Mk [] (unsorted this) (dirty this) (_count this)
    else Mk (splice_nulls (objects this)) (unsorted this) (dirty this) (_count this)
  else this.

(** [this.first()]: the first slot that holds an object. *)
Fixpoint first_of (l : list (option T)) : option T :=
  match l with
  | [] => None
  | Some o :: _ => Some o
  | None :: l' => first_of l'
  end.
Definition first (this : t) : option T := first_of (objects this).

(** [this.at(index)]: the first object at or after [index]. *)
Definition at_ (this : t) (index : nat) : option T := first_of (drop index (objects this)).

(** The live objects, in slot order. *)
Definition live (l : list (option T)) : list T := omap id l.

(** The number kept in [_count] when every [add] was of an object. *)
Definition counted (this : t) : Prop := _count this = Z.of_nat (length (live (objects this))).

(** [this.each(callback)].  The callback may change the list it is
    called from, and whatever else it reaches ([U]); its result says
    whether it returned [false].  The bound [count] is the length at the
    start, and each round reads slot [i] of the list as it is then. *)
Fixpoint each_from {U : Type} (callback : T -> U * t -> U * t * bool)
    (rounds i : nat) (s : U * t) : U * t :=
  match rounds with
  | O => s
  | S rounds' =>
      match objects s.2 !! i with
      | Some (Some o) =>
          let '(s', returned_false) := callback o s in
          if returned_false : bool then s' else each_from callback rounds' (S i) s'
      | _ => each_from callback rounds' (S i) s
      end
  end.

Definition each {U : Type} (callback : T -> U * t -> U * t * bool) (s : U * t) : U * t :=
  each_from callback (length (objects s.2)) 0 s.

(** A callback that reads the object, may remove it from the list
    ([Entity.removeAll] does), and may ask to stop. *)
Definition visiting {U : Type} (visit : T -> U -> U) (removes stops : T -> U -> bool)
    : T -> U * t -> U * t * bool :=
  fun o s =>
    let this := if removes o s.1 then (remove s.2 (Some o)).1 else s.2 in
    (visit o s.1, this, stops o s.1).

(** The visits of a traversal of the objects [l] in order, up to the
    first that asks to stop. *)
Fixpoint visits {U : Type} (visit : T -> U -> U) (stops : T -> U -> bool)
    (l : list T) (u : U) : U :=
  match l with
  | [] => u
  | o :: l' => if stops o u then visit o u else visits visit stops l' (visit o u)
  end.

End Ops.

Arguments t T : clear implicits.

End ObjectList.

(** ** Vector *)

Module Vector.

Record t := Mk { x : Qc; y : Qc }.

#[global] Instance t_eq_dec : EqDecision t.
Proof. solve_decision. Defined.

Definition set_x (v : t) (n : Qc) : t := Mk n (y v).
Definition set_y (v : t) (n : Qc) : t := Mk (x v) n.

Definition add (this v : t) : t := Mk (x this + x v) (y this + y v).
Definition sub (this v : t) : t := Mk (x this - x v) (y this - y v).
Definition mult (this v : t) : t := Mk (x this * x v) (y this * y v).
Definition scale (this : t) (s : Qc) : t := Mk (x this * s) (y this * s).

(** [this.rotate(sin, cos)] *)
Definition rotate (this : t) (sin cos : Qc) : t :=
  let ox := x this in let oy := y this in
  Mk (ox * cos - oy * sin) (ox * sin + oy * cos).


End Vector.

(** ** Results of calls that can throw *)

(** [TypeError] is what the runtime raises on a property read of [null]
    or [undefined] and on a call of something that is not a function; it
    carries no text of the program's own.  [Error] is
    [throw new Error(message)]. *)
Inductive exn :=
| TypeError
| Error (message : string).

(** [Unmodelled]: the source leaves the rationals (a division by zero). *)
Inductive outcome (A : Type) :=
| Ret (a : A)
| Throw (e : exn)
| Unmodelled.

Arguments Ret {A} a.
Arguments Throw {A} e.
Arguments Unmodelled {A}.

(** ** Entity *)

Module Entity.

Record t := Mk { position : Vector.t; scene : option nat }.

Definition x (e : t) : Qc := Vector.x (position e).
Definition y (e : t) : Qc := Vector.y (position e).
Definition set_x (e : t) (n : Qc) : t := Mk (Vector.set_x (position e) n) (scene e).
Definition set_y (e : t) (n : Qc) : t := Mk (Vector.set_y (position e) n) (scene e).

End Entity.

(** ** Scene: the tag index of colliders *)

Module Scene.

Record t := Mk { colliders : gmap string (list nat) }.

Definition allCollidersInTag (s : t) (tag : string) : list nat :=
  match colliders s !! tag with
  | Some l => l
  | None => []
  end.

Definition _trackCollider (s : t) (collider : nat) (tag : string) : t :=
  Mk (<[tag := allCollidersInTag s tag ++ [collider]]> (colliders s)).

(** [_untrackCollider(collider, tag)]: the first entry of the collider
    is spliced out, and a list left empty is deleted with its tag. *)
Definition _untrackCollider (s : t) (collider : nat) (tag : string) : t :=
  match colliders s !! tag with
  | None => s
  | Some l =>
      match Js.index_of collider l with
      | None => s
      | Some index =>
          let l' := delete index l in
          if decide (length l' <= 0)%nat
          then Mk (delete tag (colliders s))
          else Mk (<[tag := l']> (colliders s))
      end
  end.

(** No tag is kept with an empty list. *)
Definition no_empty_list (s : t) : Prop :=
  forall tag l, colliders s !! tag = Some l -> l <> [].

End Scene.

(** ** Physics fields and the calls to game callbacks *)

Module PhysicsFields.

(** Callbacks are named by a reference; what a callback does to the game
    is not modelled, the world's log records each call with its
    arguments. *)
Record t := Mk {
  solids : list string;
  onCollide : list nat;
  onCollideX : option nat;
  onCollideY : option nat;
  speed : Vector.t;
  remainder : Vector.t
}.

Definition set_speed (p : t) (v : Vector.t) : t :=
  Mk (solids p) (onCollide p) (onCollideX p) (onCollideY p) v (remainder p).
Definition set_remainder (p : t) (v : Vector.t) : t :=
  Mk (solids p) (onCollide p) (onCollideX p) (onCollideY p) (speed p) v.

End PhysicsFields.

Inductive call :=
| CallCollideX (cb hit : nat)
| CallCollideY (cb hit : nat)
| CallCollide (cb : nat) (horizontal : bool) (hit : nat).

#[global] Instance call_eq_dec : EqDecision call.
Proof. solve_decision. Defined.

(** ** Collider objects *)

Module Collider.

(** The fields the subclasses add.  [Custom] is a collider class of a
    game, with its [type] tag. *)
Inductive shape :=
| Hitbox (left top width height : Qc)
| Hitgrid (tileWidth tileHeight : Qc) (map : gmap Z (gmap Z bool))
| Custom (type : string).

(** A [Physics] object is a [Hitbox] with [mover] fields. *)
Record t := Mk {
  _entity : option nat;
  position : Vector.t;
  tags : list string;
  shape_of : shape;
  mover : option PhysicsFields.t
}.

(** The [type] field, as the constructors set it. *)
Definition type (c : t) : string :=
  match shape_of c with
  | Hitbox _ _ _ _ => "Hitbox"
  | Hitgrid _ _ _ => "Hitgrid"
  | Custom ty => ty
  end.

Definition x (c : t) : Qc := Vector.x (position c).
Definition y (c : t) : Qc := Vector.y (position c).
Definition set_x (c : t) (n : Qc) : t :=
  Mk (_entity c) (Vector.set_x (position c) n) (tags c) (shape_of c) (mover c).
Definition set_y (c : t) (n : Qc) : t :=
  Mk (_entity c) (Vector.set_y (position c) n) (tags c) (shape_of c) (mover c).
Definition set_mover (c : t) (p : PhysicsFields.t) : t :=
  Mk (_entity c) (position c) (tags c) (shape_of c) (Some p).
Definition set_tags (c : t) (l : list string) : t :=
  Mk (_entity c) (position c) l (shape_of c) (mover c).

(** [scenePosition]: the entity's position (or the origin without an
    entity) plus the local position. *)
Definition scenePosition (es : gmap nat Entity.t) (c : t) : Vector.t :=
  let e := _entity c ≫= fun r => es !! r in
  let ex := match e with Some e => Entity.x e | None => Js.zero end in
  let ey := match e with Some e => Entity.y e | None => Js.zero end in
  Vector.Mk (ex + x c) (ey + y c).

(** An overlap test reads the two colliders and the entities they sit
    on. *)
Definition test : Type := gmap nat Entity.t -> t -> t -> outcome bool.

End Collider.

(** ** Hitbox *)

Module Hitbox.

Import Collider.

(** The getters; [None] is [undefined], on an object without the
    fields. *)
Definition sceneLeft (es : gmap nat Entity.t) (c : t) : option Qc :=
  match shape_of c with
  | Hitbox l _ _ _ => Some (Vector.x (scenePosition es c) + l)
  | _ => None
  end.
Definition sceneRight (es : gmap nat Entity.t) (c : t) : option Qc :=
  match shape_of c with
  | Hitbox l _ w _ => Some (Vector.x (scenePosition es c) + l + w)
  | _ => None
  end.
Definition sceneTop (es : gmap nat Entity.t) (c : t) : option Qc :=
  match shape_of c with
  | Hitbox _ t _ _ => Some (Vector.y (scenePosition es c) + t)
  | _ => None
  end.
Definition sceneBottom (es : gmap nat Entity.t) (c : t) : option Qc :=
  match shape_of c with
  | Hitbox _ t _ h => Some (Vector.y (scenePosition es c) + t + h)
  | _ => None
  end.

(** [new Hitbox(left, top, width, height)], not yet on an entity. *)
Definition new (left top width height : Qc) : t :=
  Mk None (Vector.Mk Js.zero Js.zero) [] (Hitbox left top width height) None.

End Hitbox.

(** [a > b] and [a < b] on values that may be [undefined]: a comparison
    with [undefined] is false. *)
Definition js_gt (a b : option Qc) : bool :=
  match a, b with
  | Some a, Some b => bool_decide (b < a)
  | _, _ => false
  end.
Definition js_lt (a b : option Qc) : bool := js_gt b a.

(** ** Hitgrid *)

Module Hitgrid.

(** [this.has(tx, ty)] with [columns] and [rows] left out: one tile. *)
Definition has (map : gmap Z (gmap Z bool)) (tx ty : Z) : bool :=
  match map !! tx with
  | None => false
  | Some col => match col !! ty with
                | Some true => true
                | _ => false
                end
  end.

(** The integers [lo <= i < hi], ascending. *)
Definition range (lo hi : Z) : list Z :=
  (fun i => (lo + Z.of_nat i)%Z) <$> seq 0 (Z.to_nat (hi - lo)).

(** [columns || 1] *)
Definition or_one (n : option Z) : Z :=
  match n with
  | None => 1%Z
  | Some n => if decide (n = 0%Z) then 1%Z else n
  end.

(** [this.has(tx, ty, columns, rows)] *)
Definition has_in (map : gmap Z (gmap Z bool)) (tx ty : Z) (columns rows : option Z) : bool :=
  existsb (fun x => match map !! x with
                    | None => false
                    | Some col => existsb (fun y => bool_decide (col !! y = Some true))
                                          (range ty (ty + or_one rows))
                    end)
          (range tx (tx + or_one columns)).

(** The inner [for] of [set], on the column of one [x]. *)
Definition set_column (solid : bool) (ys : list Z) (col : gmap Z bool) : gmap Z bool :=
  foldl (fun col y => if solid then <[y := solid]> col else delete y col) col ys.

(** [this.set(solid, tx, ty, columns, rows)]: a missing column is
    created, then each tile of it is stored or deleted. *)
Definition set (map : gmap Z (gmap Z bool)) (solid : bool) (tx ty : Z)
    (columns rows : option Z) : gmap Z (gmap Z bool) :=
  foldl (fun map x =>
           let map := match map !! x with None => <[x := ∅]> map | Some _ => map end in
           match map !! x with
           | Some col => <[x := set_column solid (range ty (ty + or_one rows)) col]> map
           | None => map
           end)
        map (range tx (tx + or_one columns)).

End Hitgrid.

(** ** The world: the objects of a running game *)

Module World.

(** [overlaptest] is the static [Collider.overlaptest]; [delta] is
    [Engine.delta]; [log] lists the calls made to game callbacks, oldest
    first. *)
Record t := Mk {
  overlaptest : gmap string (gmap string Collider.test);
  delta : Qc;
  entities : gmap nat Entity.t;
  scenes : gmap nat Scene.t;
  colliders : gmap nat Collider.t;
  log : list call
}.

Definition set_overlaptest (w : t) (r : gmap string (gmap string Collider.test)) : t :=
  Mk r (delta w) (entities w) (scenes w) (colliders w) (log w).
Definition set_entities (w : t) (es : gmap nat Entity.t) : t :=
  Mk (overlaptest w) (delta w) es (scenes w) (colliders w) (log w).
Definition set_colliders (w : t) (cs : gmap nat Collider.t) : t :=
  Mk (overlaptest w) (delta w) (entities w) (scenes w) cs (log w).
Definition set_log (w : t) (l : list call) : t :=
  Mk (overlaptest w) (delta w) (entities w) (scenes w) (colliders w) l.
Definition set_scenes (w : t) (ss : gmap nat Scene.t) : t :=
  Mk (overlaptest w) (delta w) (entities w) ss (colliders w) (log w).

Definition empty : t := Mk ∅ Js.zero ∅ ∅ ∅ [].

End World.

(** ** Computations on the world that may throw *)

Definition M (A : Type) : Type := World.t -> outcome A * World.t.

Definition ret {A} (a : A) : M A := fun w => (Ret a, w).
Definition throw {A} (e : exn) : M A := fun w => (Throw e, w).
Definition bind {A B} (m : M A) (k : A -> M B) : M B :=
  fun w => match m w with
           | (Ret a, w') => k a w'
           | (Throw e, w') => (Throw e, w')
           | (Unmodelled, w') => (Unmodelled, w')
           end.

Notation "x <- m ;; k" := (bind m (fun x => k))
  (at level 100, m at next level, right associativity).
Notation "m ;;; k" := (bind m (fun _ => k))
  (at level 100, right associativity).

(** A dereference: a [null] or missing object raises [TypeError]. *)
Definition deref {A} (o : option A) : M A :=
  match o with
  | Some a => ret a
  | None => throw TypeError
  end.

Definition get_collider (r : nat) : M Collider.t :=
  fun w => deref (World.colliders w !! r) w.
Definition get_entity (r : option nat) : M Entity.t :=
  fun w => deref (r ≫= fun r => World.entities w !! r) w.
Definition get_scene (r : option nat) : M Scene.t :=
  fun w => deref (r ≫= fun r => World.scenes w !! r) w.
Definition get_mover (r : nat) : M PhysicsFields.t :=
  c <- get_collider r ;; deref (Collider.mover c).

(** Read-modify-write of one object. *)
Definition update_collider (r : nat) (f : Collider.t -> Collider.t) : M unit :=
  c <- get_collider r ;;
  fun w => (Ret tt, World.set_colliders w (<[r := f c]> (World.colliders w))).
Definition update_entity (r : option nat) (f : Entity.t -> Entity.t) : M unit :=
  e <- get_entity r ;;
  fun w => match r with
           | Some r => (Ret tt, World.set_entities w (<[r := f e]> (World.entities w)))
           | None => (Throw TypeError, w)
           end.
Definition update_mover (r : nat) (f : PhysicsFields.t -> PhysicsFields.t) : M unit :=
  p <- get_mover r ;; update_collider r (fun c => Collider.set_mover c (f p)).

Definition record_call (c : call) : M unit :=
  fun w => (Ret tt, World.set_log w (World.log w ++ [c])).

(** A computation that reads the world and leaves it as it is. *)
Definition pure {A} (m : M A) : Prop := forall w, (m w).2 = w.

(** ** Collider: the overlap registry and the queries *)

Module ColliderOps.

Abbreviation registry := (gmap string (gmap string Collider.test)).

Definition row (reg : registry) (ty : string) : gmap string Collider.test :=
  match reg !! ty with
  | Some r => r
  | None => ∅
  end.

(** [Collider.registerOverlapTest(fromType, toType, test)]: the two
    missing rows are created, then the two cells are assigned in the
    source's order. *)
Definition registerOverlapTest (fromType toType : string) (test : Collider.test)
    (reg : registry) : registry :=
  let reg := match reg !! fromType with None => <[fromType := ∅]> reg | Some _ => reg end in
  let reg := match reg !! toType with None => <[toType := ∅]> reg | Some _ => reg end in
  let reg := <[fromType := <[toType := fun es a b => test es a b]> (row reg fromType)]> reg in
  let reg := <[toType := <[fromType := fun es a b => test es b a]> (row reg toType)]> reg in
  reg.


(** The test that [overlaptest[tyA][tyB]] finds, if any. *)
Definition cell (reg : registry) (tyA tyB : string) : option Collider.test :=
  reg !! tyA ≫= fun r => r !! tyB.


(** [Collider.overlap(a, b)]:
    [Collider.overlaptest[a.type][b.type](a, b)]. *)
Definition overlap (a b : nat) : M bool :=
  ca <- get_collider a ;;
  cb <- get_collider b ;;
  fun w =>
    match World.overlaptest w !! Collider.type ca with
    | None => (Throw TypeError, w)
    | Some r =>
        match r !! Collider.type cb with
        | None => (Throw TypeError, w)
        | Some test => (test (World.entities w) ca cb, w)
        end
    end.

(** The [if (Collider.overlap(this, other))] of the scans, for a call
    that returns. *)
Definition hits (this other : nat) (w : World.t) : bool :=
  match (overlap this other w).1 with
  | Ret true => true
  | _ => false
  end.

(** [this.entity.scene.allCollidersInTag(tag)] *)
Definition against_of (this : nat) (tag : string) : M (list nat) :=
  c <- get_collider this ;;
  e <- get_entity (Collider._entity c) ;;
  s <- get_scene (Entity.scene e) ;;
  ret (Scene.allCollidersInTag s tag).

(** The [for ... of] of [collide], which stops at the first overlap. *)
Fixpoint first_overlap (this : nat) (against : list nat) : M (option nat) :=
  match against with
  | [] => ret None
  | other :: rest =>
      hit <- overlap this other ;;
      if hit : bool then ret (Some other) else first_overlap this rest
  end.

(** The [for ... of] of [collideAll]. *)
Fixpoint all_overlaps (this : nat) (against : list nat) : M (list nat) :=
  match against with
  | [] => ret []
  | other :: rest =>
      hit <- overlap this other ;;
      l <- all_overlaps this rest ;;
      ret (if hit : bool then other :: l else l)
  end.

Definition collide (this : nat) (tag : string) (x y : option Qc) : M (option nat) :=
  against <- against_of this tag ;;
  update_collider this (fun c => Collider.set_x c (Collider.x c + Js.or_default x Js.zero)) ;;;
  update_collider this (fun c => Collider.set_y c (Collider.y c + Js.or_default y Js.zero)) ;;;
  result <- first_overlap this against ;;
  update_collider this (fun c => Collider.set_x c (Collider.x c - Js.or_default x Js.zero)) ;;;
  update_collider this (fun c => Collider.set_y c (Collider.y c - Js.or_default y Js.zero)) ;;;
  ret result.

Definition check (this : nat) (tag : string) (x y : option Qc) : M bool :=
  hit <- collide this tag x y ;; ret (bool_decide (is_Some hit)).

Fixpoint collides (this : nat) (tags : list string) (x y : option Qc) : M (option nat) :=
  match tags with
  | [] => ret None
  | tag :: rest =>
      hit <- collide this tag x y ;;
      match hit with
      | Some h => ret (Some h)
      | None => collides this rest x y
      end
  end.

Definition collideAll (this : nat) (tag : string) (x y : option Qc) : M (list nat) :=
  against <- against_of this tag ;;
  update_collider this (fun c => Collider.set_x c (Collider.x c + Js.or_default x Js.zero)) ;;;
  update_collider this (fun c => Collider.set_y c (Collider.y c + Js.or_default y Js.zero)) ;;;
  l <- all_overlaps this against ;;
  update_collider this (fun c => Collider.set_x c (Collider.x c - Js.or_default x Js.zero)) ;;;
  update_collider this (fun c => Collider.set_y c (Collider.y c - Js.or_default y Js.zero)) ;;;
  ret l.

Fixpoint checks (this : nat) (tags : list string) (x y : option Qc) : M bool :=
  match tags with
  | [] => ret false
  | tag :: rest =>
      hit <- collide this tag x y ;;
      match hit with
      | Some _ => ret true
      | None => checks this rest x y
      end
  end.

(** The scene that indexes the collider: [this.entity.scene], when
    neither is [null]. *)
Definition scene_of (c : Collider.t) : M (option nat) :=
  match Collider._entity c with
  | None => ret None
  | Some e => ent <- get_entity (Some e) ;; ret (Entity.scene ent)
  end.

Definition update_scene (r : nat) (f : Scene.t -> Scene.t) : M unit :=
  s <- get_scene (Some r) ;;
  fun w => (Ret tt, World.set_scenes w (<[r := f s]> (World.scenes w))).

(** [this.tag(tag)] *)
Definition tag (this : nat) (tag : string) : M unit :=
  update_collider this (fun c => Collider.set_tags c (Collider.tags c ++ [tag])) ;;;
  c <- get_collider this ;;
  sc <- scene_of c ;;
  match sc with
  | Some r => update_scene r (fun s => Scene._trackCollider s this tag)
  | None => ret tt
  end.


(** The collider [this] moved by [(dx, dy)], everything else as it is:
    the world in which the scan of a query runs. *)
Definition translated (this : nat) (c : Collider.t) (dx dy : Qc) (w : World.t) : World.t :=
  World.set_colliders w
    (<[this := Collider.set_y (Collider.set_x c (Collider.x c + dx)) (Collider.y c + dy)]>
       (World.colliders w)).

(** The two tests of [DefaultOverlapTests]. *)
Definition hitbox_hitbox : Collider.test := fun es a b =>
  Ret (js_gt (Hitbox.sceneRight es a) (Hitbox.sceneLeft es b)
       && js_gt (Hitbox.sceneBottom es a) (Hitbox.sceneTop es b)
       && js_lt (Hitbox.sceneLeft es a) (Hitbox.sceneRight es b)
       && js_lt (Hitbox.sceneTop es a) (Hitbox.sceneBottom es b)).

Definition hitbox_hitgrid : Collider.test := fun es a b =>
  match Collider.shape_of a, Collider.shape_of b with
  | Collider.Hitbox _ _ _ _, Collider.Hitgrid tileWidth tileHeight map =>
      if decide (tileWidth = Js.zero \/ tileHeight = Js.zero) then Unmodelled
      else
        let gridPosition := Collider.scenePosition es b in
        let sl := default Js.zero (Hitbox.sceneLeft es a) in
        let st := default Js.zero (Hitbox.sceneTop es a) in
        let sr := default Js.zero (Hitbox.sceneRight es a) in
        let sb := default Js.zero (Hitbox.sceneBottom es a) in
        let left := Qfloor ((sl - Vector.x gridPosition) / tileWidth) in
        let top := Qfloor ((st - Vector.y gridPosition) / tileHeight) in
        let right := Qceiling ((sr - Vector.x gridPosition) / tileWidth) in
        let bottom := Qceiling ((sb - Vector.y gridPosition) / tileHeight) in
        Ret (bool_decide
               (Exists (fun x => Exists (fun y => Hitgrid.has map x y = true)
                                        (Hitgrid.range top bottom))
                       (Hitgrid.range left right)))
  | _, _ => Ret false
  end.

Definition DefaultOverlapTests (reg : registry) : registry :=
  registerOverlapTest "Hitbox" "Hitgrid" hitbox_hitgrid
    (registerOverlapTest "Hitbox" "Hitbox" hitbox_hitbox reg).

End ColliderOps.

(** ** Physics: the mover *)

Module Physics.

Import PhysicsFields.

(** [moveX]/[moveXAbsolute] and [moveY]/[moveYAbsolute] are the same text
    up to the axis, which is a parameter here. *)
Inductive axis := Horizontal | Vertical.

Definition comp (ax : axis) (v : Vector.t) : Qc :=
  match ax with Horizontal => Vector.x v | Vertical => Vector.y v end.
Definition set_comp (ax : axis) (v : Vector.t) (n : Qc) : Vector.t :=
  match ax with Horizontal => Vector.set_x v n | Vertical => Vector.set_y v n end.

Definition is_horizontal (ax : axis) : bool :=
  match ax with Horizontal => true | Vertical => false end.
Definition axis_callback (ax : axis) (p : PhysicsFields.t) : option nat :=
  match ax with Horizontal => onCollideX p | Vertical => onCollideY p end.
Definition axis_call (ax : axis) (cb hit : nat) : call :=
  match ax with Horizontal => CallCollideX cb hit | Vertical => CallCollideY cb hit end.

(** [entity.x += n] (or [entity.y += n]) *)
Definition entity_add (ax : axis) (entity : option nat) (n : Qc) : M unit :=
  update_entity entity
    (fun e => Entity.Mk (set_comp ax (Entity.position e) (comp ax (Entity.position e) + n))
                        (Entity.scene e)).

(** [this.remainder.x = n] (or [.y]) *)
Definition set_remainder_comp (ax : axis) (this : nat) (n : Qc) : M unit :=
  update_mover this (fun p => set_remainder p (set_comp ax (remainder p) n)).

(** [this.collides(this.solids, sign, 0)] (or [(..., 0, sign)]) *)
Definition probe (ax : axis) (this : nat) (solids : list string) (sign : Qc) : M (option nat) :=
  match ax with
  | Horizontal => ColliderOps.collides this solids (Some sign) (Some Js.zero)
  | Vertical => ColliderOps.collides this solids (Some Js.zero) (Some sign)
  end.

(** [hit && hit.entity ? hit.entity === entity : false] *)
Definition isMe (hit : option nat) (entity : option nat) : M bool :=
  match hit with
  | None => ret false
  | Some h =>
      hc <- get_collider h ;;
      match Collider._entity hc with
      | Some he => ret (bool_decide (Some he = entity))
      | None => ret false
      end
  end.

(** The [for ... of] over [this.onCollide]. *)
Fixpoint call_all (cbs : list nat) (horizontal : bool) (hit : nat) : M unit :=
  match cbs with
  | [] => ret tt
  | cb :: rest => record_call (CallCollide cb horizontal hit) ;;; call_all rest horizontal hit
  end.

(** The branch taken on a blocking hit. *)
Definition blocked (ax : axis) (this hit : nat) : M bool :=
  set_remainder_comp ax this Js.zero ;;;
  p <- get_mover this ;;
  match axis_callback ax p with
  | Some cb => record_call (axis_call ax cb hit)
  | None => ret tt
  end ;;;
  call_all (onCollide p) (is_horizontal ax) hit ;;;
  ret false.

(** The [while (amount > 0)] loop.  There [amount] is a whole number that
    is not negative and each round takes one off, so the loop is a
    recursion on that number. *)
Fixpoint sweep (ax : axis) (this : nat) (entity : option nat) (sign : Qc) (amount : nat)
    : M bool :=
  match amount with
  | O => ret true
  | S amount' =>
      p <- get_mover this ;;
      hit <- probe ax this (solids p) sign ;;
      me <- isMe hit entity ;;
      match hit with
      | Some h =>
          if me : bool
          then entity_add ax entity sign ;;; sweep ax this entity sign amount'
          else blocked ax this h
      | None => entity_add ax entity sign ;;; sweep ax this entity sign amount'
      end
  end.

(** The calls of the blocked branch, in the order they are made. *)
Definition collision_calls (ax : axis) (p : PhysicsFields.t) (hit : nat) : list call :=
  match axis_callback ax p with
  | Some cb => [axis_call ax cb hit]
  | None => []
  end ++ map (fun cb => CallCollide cb (is_horizontal ax) hit) (onCollide p).

(** An entity moved by [n] along the axis, and the world after
    [entity.x += n] (or [.y]) on the entity [e]. *)
Definition moved (ax : axis) (n : Qc) (ent : Entity.t) : Entity.t :=
  Entity.Mk (set_comp ax (Entity.position ent) (comp ax (Entity.position ent) + n))
            (Entity.scene ent).
Definition advance (ax : axis) (e : nat) (n : Qc) (w : World.t) : World.t :=
  match World.entities w !! e with
  | Some ent => World.set_entities w (<[e := moved ax n ent]> (World.entities w))
  | None => w
  end.

(** The world after [this.remainder.x = n] (or [.y]) on the mover
    [this], whose fields are [p]. *)
Definition carrying (ax : axis) (this : nat) (c : Collider.t) (p : PhysicsFields.t)
    (n : Qc) (w : World.t) : World.t :=
  World.set_colliders w
    (<[this := Collider.set_mover c (set_remainder p (set_comp ax (remainder p) n))]>
       (World.colliders w)).

(** The world of the blocked branch once it returns: the axis remainder
    of the mover is zero and the log has the calls. *)
Definition halted (ax : axis) (this : nat) (c : Collider.t) (p : PhysicsFields.t)
    (hit : nat) (w : World.t) : World.t :=
  World.Mk (World.overlaptest w) (World.delta w) (World.entities w) (World.scenes w)
    (<[this := Collider.set_mover c (set_remainder p (set_comp ax (remainder p) Js.zero))]>
       (World.colliders w))
    (World.log w ++ collision_calls ax p hit).

(** The number of rounds for [amount = Math.abs(Math.round(amount))]. *)
Definition steps (amount : Qc) : nat := Z.to_nat (Js.floor (Js.abs (Js.round amount))).

Definition moveAbsolute (ax : axis) (this : nat) (amount : Qc) : M bool :=
  c <- get_collider this ;;
  let entity := Collider._entity c in
  p <- get_mover this ;;
  if decide (length (solids p) <= 0)%nat
  then entity_add ax entity (Js.round amount) ;;; ret true
  else
    let sign := Calc.sign amount in
    sweep ax this entity sign (steps amount).

Definition move_axis (ax : axis) (this : nat) (amount : Qc) : M bool :=
  p <- get_mover this ;;
  let moveBy := amount + comp ax (remainder p) in
  set_remainder_comp ax this (Js.rem moveBy 1) ;;;
  p <- get_mover this ;;
  let moveBy := moveBy - comp ax (remainder p) in
  moveAbsolute ax this moveBy.

Definition moveX : nat -> Qc -> M bool := move_axis Horizontal.
Definition moveY : nat -> Qc -> M bool := move_axis Vertical.
Definition moveXAbsolute : nat -> Qc -> M bool := moveAbsolute Horizontal.
Definition moveYAbsolute : nat -> Qc -> M bool := moveAbsolute Vertical.

Definition update (this : nat) : M unit :=
  p <- get_mover this ;;
  (if decide (Vector.x (speed p) = Js.zero) then ret tt
   else fun w => (moveX this (Vector.x (speed p) * World.delta w) ;;; ret tt) w) ;;;
  p <- get_mover this ;;
  (if decide (Vector.y (speed p) = Js.zero) then ret tt
   else fun w => (moveY this (Vector.y (speed p) * World.delta w) ;;; ret tt) w).

Definition move (this : nat) (x y : Qc) : M bool :=
  movedX <- moveX this x ;;
  movedY <- moveY this y ;;
  ret (movedX && movedY).





(** [Math.max(-m, Math.min(m, s))] *)
Definition maxspeed_comp (s m : Qc) : Qc := Js.max (- m) (Js.min m s).

(** [this.maxspeed(mx, my)]; a limit left out (or [null]) is skipped. *)
Definition maxspeed (this : nat) (mx my : option Qc) : M unit :=
  match mx with
  | Some m =>
      update_mover this
        (fun p => set_speed p (Vector.set_x (speed p) (maxspeed_comp (Vector.x (speed p)) m)))
  | None => ret tt
  end ;;;
  match my with
  | Some m =>
      update_mover this
        (fun p => set_speed p (Vector.set_y (speed p) (maxspeed_comp (Vector.y (speed p)) m)))
  | None => ret tt
  end.

Definition stop (this : nat) : M unit :=
  update_mover this (fun p => set_speed p (Vector.Mk Js.zero Js.zero)) ;;;
  update_mover this (fun p => set_remainder p (Vector.Mk Js.zero Js.zero)).

(** [new Physics(left, top, width, height, tags, solids)], not yet on an
    entity and with no callbacks. *)
Definition new (left top width height : Qc) (solids : list string) : Collider.t :=
  Collider.Mk None (Vector.Mk Js.zero Js.zero) []
    (Collider.Hitbox left top width height)
    (Some (Mk solids [] None None (Vector.Mk Js.zero Js.zero) (Vector.Mk Js.zero Js.zero))).

End Physics.

(** ** Concrete values used by the examples *)

Module Examples.

Definition q (n : Z) : Qc := Js.of_Z n.

(** Rectangles for [cropRect]. *)
Definition target : Rectangle.t := Rectangle.Mk (q 100) (q 0) (q 10) (q 10).
Definition below : Rectangle.t := Rectangle.Mk (q 100) (q 150) (q 5) (q 5).

Definition lowered : Rectangle.t := Rectangle.Mk (q 0) (q 10) (q 10) (q 10).
Definition above : Rectangle.t := Rectangle.Mk (q 0) (q 5) (q 5) (q 10).
Definition origin : Rectangle.t := Rectangle.Mk (q 0) (q 0) (q 10) (q 10).
Definition leftward : Rectangle.t := Rectangle.Mk (q (-20)) (q 0) (q 5) (q 5).

(** An object list after [add(1)], [add(2)], [remove(1)]. *)
Definition two_added : ObjectList.t nat :=
  ObjectList.add (ObjectList.add ObjectList.new (Some 1%nat)) (Some 2%nat).
Definition one_removed : ObjectList.t nat :=
  fst (ObjectList.remove two_added (Some 1%nat)).

(** A small level: the player's mover, as the sample game builds it, on
    entity 0 at the origin, and a wall hitbox on entity 1 at x = 6; both
    in scene 0, the wall tagged [solid]. *)
Definition player : Collider.t :=
  Collider.Mk (Some 0%nat) (Vector.Mk (q 0) (q 0)) []
    (Collider.Hitbox (q (-4)) (q (-4)) (q 8) (q 8))
    (Some (PhysicsFields.Mk ["solid"] [8%nat; 9%nat] (Some 7%nat) None
             (Vector.Mk (q 0) (q 0)) (Vector.Mk (q 0) (q 0)))).
Definition wall : Collider.t :=
  Collider.Mk (Some 1%nat) (Vector.Mk (q 0) (q 0)) ["solid"]
    (Collider.Hitbox (q 0) (q 0) (q 16) (q 16)) None.
Definition level : World.t :=
  World.Mk (ColliderOps.DefaultOverlapTests ∅) (Js.of_Z 1 / Js.of_Z 60)
    {[ 0%nat := Entity.Mk (Vector.Mk (q 0) (q 0)) (Some 0%nat);
       1%nat := Entity.Mk (Vector.Mk (q 6) (q 0)) (Some 0%nat) ]}
    {[ 0%nat := Scene.Mk {[ "solid" := [1%nat] ]} ]}
    {[ 0%nat := player; 1%nat := wall ]}
    [].


(** The level with the player itself tagged [solid] and first in the
    [solid] list. *)
Definition level_self_solid : World.t :=
  World.Mk (ColliderOps.DefaultOverlapTests ∅) (Js.of_Z 1 / Js.of_Z 60)
    (World.entities level)
    {[ 0%nat := Scene.Mk {[ "solid" := [0%nat; 1%nat] ]} ]}
    (World.colliders level)
    [].

(** Three hitboxes on no entity: (0, 0, 10, 10), (10, 0, 10, 10) and
    (9, 0, 10, 10). *)
Definition boxes : World.t :=
  World.Mk (ColliderOps.DefaultOverlapTests ∅) Js.zero ∅ ∅
    {[ 0%nat := Hitbox.new (q 0) (q 0) (q 10) (q 10);
       1%nat := Hitbox.new (q 10) (q 0) (q 10) (q 10);
       2%nat := Hitbox.new (q 9) (q 0) (q 10) (q 10) ]}
    [].

(** A mover with no solids and speed (30, 0) on entity 0, at a sixtieth
    of a second per tick. *)
Definition ghost : Collider.t :=
  Collider.Mk (Some 0%nat) (Vector.Mk (q 0) (q 0)) []
    (Collider.Hitbox (q (-4)) (q (-4)) (q 8) (q 8))
    (Some (PhysicsFields.Mk [] [8%nat] (Some 7%nat) None
             (Vector.Mk (q 30) (q 0)) (Vector.Mk (q 0) (q 0)))).
Definition ghost_level : World.t :=
  World.Mk (ColliderOps.DefaultOverlapTests ∅) (Js.of_Z 1 / Js.of_Z 60)
    {[ 0%nat := Entity.Mk (Vector.Mk (q 0) (q 0)) (Some 0%nat) ]}
    {[ 0%nat := Scene.Mk ∅ ]}
    {[ 0%nat := ghost ]}
    [].

End Examples.

(** * Properties *)

(** ** Arithmetic helpers *)

Lemma Qc_eq_Qeq (x y : Qc) : x = y <-> (this x == this y)%Q.
Proof.
  split; [intros ->; reflexivity | apply Qc_is_canon].
Qed.

Ltac qc_to_q :=
  repeat match goal with
  | H : @eq Qc _ _ |- _ => apply Qc_eq_Qeq in H
  | H : ~ @eq Qc _ _ |- _ => rewrite Qc_eq_Qeq in H
  | |- @eq Qc _ _ => apply Qc_is_canon
  | |- ~ @eq Qc _ _ => rewrite Qc_eq_Qeq
  end;
  unfold Js.zero, Js.half, Qclt, Qcle, Qcminus, Qcplus, Qcopp, Qcmult, Q2Qc in *;
  cbn [this] in *;
  rewrite ?Qred_correct in *.

Ltac qc_lra := qc_to_q; lra.

(** Closed facts about concrete values, by evaluation of the decision
    procedure. *)
Ltac by_eval := apply (bool_decide_unpack _); vm_compute; exact I.

(** ** Binary64 against the rational model *)

(** At 30 units per second and a sixtieth of a second the amount of a
    tick is one half exactly, and two of them sum to 1 exactly, as in the
    rational model. *)
Lemma binary64_half_tick :
  PrimFloat.eqb Binary64.tick_amount 0.5 = true /\
  PrimFloat.eqb (Binary64.tick_amount + Binary64.tick_amount) 1 = true.
Proof. split; reflexivity. Qed.

(** Undoing a translation by subtraction is exact on whole numbers, as in
    the rational model; on fractions the sum can round, and (0.1 + 0.2) -
    0.2 is not 0.1. *)
Lemma binary64_there_and_back :
  PrimFloat.eqb (Binary64.there_and_back 3 1) 3 = true /\
  PrimFloat.eqb (Binary64.there_and_back (-4) (-1)) (-4) = true /\
  PrimFloat.eqb (Binary64.there_and_back 0x1.999999999999ap-4 0x1.999999999999ap-3)
                0x1.999999999999ap-4 = false.
Proof. repeat split; reflexivity. Qed.

(** ** Rectangle *)

Section RectangleFacts.

Import Rectangle.

Lemma or_default_not_zero (v : option Qc) (d : Qc) :
  d <> Js.zero -> Js.or_default v d <> Js.zero.
Proof.
  intros Hd. unfold Js.or_default.
  destruct v as [n|]; [destruct (decide (n = Js.zero))|]; assumption.
Qed.

(** C10: the constructor turns a missing or zero width (height) into 1,
    keeps every other width (height), and so never builds a rectangle of
    zero width or height; [set] does store a zero. *)
Theorem Rectangle_new_extent (x y w h : option Qc) (n : Qc) :
  width (new x y None h) = 1 /\
  width (new x y (Some Js.zero) h) = 1 /\
  height (new x y w None) = 1 /\
  height (new x y w (Some Js.zero)) = 1 /\
  width (new x y w h) = Js.or_default w 1 /\
  height (new x y w h) = Js.or_default h 1 /\
  width (new x y w h) <> Js.zero /\
  height (new x y w h) <> Js.zero /\
  width (set (new x y w h) n n Js.zero Js.zero) = Js.zero /\
  height (set (new x y w h) n n Js.zero Js.zero) = Js.zero.
Proof.
  repeat split; try reflexivity;
    cbn [new width height]; apply or_default_not_zero; by_eval.
Qed.

Ltac crop_step f :=
  unfold f, left, right, top, bottom, set_x, set_y, set_width, set_height;
  cbn [x y width height] in *;
  case_decide; cbn [x y width height] in *.

Ltac crop_cases :=
  unfold cropRect; cbv zeta;
  crop_step crop_left; [crop_step crop_top | crop_step crop_top];
  (crop_step crop_past_right; [crop_step crop_past_bottom | crop_step crop_past_bottom]);
  (crop_step crop_right; [crop_step crop_bottom | crop_step crop_bottom]);
  unfold within, left, right, top, bottom; cbn [x y width height] in *.

(** A rectangle that already lies within the target, with its corner
    inside, is left as it is. *)
Lemma cropRect_fixed (this r : t) :
  x this = y this ->
  left this <= left r -> top this <= top r ->
  left r <= right this -> top r <= bottom this ->
  right r <= right this -> bottom r <= bottom this ->
  cropRect this r = r.
Proof.
  destruct this as [tx ty tw th], r as [rx ry rw rh].
  unfold left, right, top, bottom. cbn [x y width height].
  intros Hd Hl Ht Hlr Htb Hr Hb. subst ty.
  crop_cases; try reflexivity; exfalso; qc_lra.
Qed.

(** Where the target has its corner on the diagonal ([x = y]) the second
    guard reads the coordinate it was meant to read; a rectangle of
    non-negative extent that reaches into such a target is clipped into
    it, keeps a non-negative extent, and a second crop changes
    nothing. *)
Lemma cropRect_on_diagonal (this r : t) :
  x this = y this ->
  Js.zero <= width this -> Js.zero <= height this ->
  Js.zero <= width r -> Js.zero <= height r ->
  left this <= right r -> top this <= bottom r ->
  within (cropRect this r) this /\
  Js.zero <= width (cropRect this r) /\
  Js.zero <= height (cropRect this r) /\
  cropRect this (cropRect this r) = cropRect this r.
Proof.
  intros Hd Hw Hh Hrw Hrh Hl Ht.
  assert (Hin : within (cropRect this r) this /\
                Js.zero <= width (cropRect this r) /\
                Js.zero <= height (cropRect this r)).
  { clear - Hd Hw Hh Hrw Hrh Hl Ht.
    destruct this as [tx ty tw th], r as [rx ry rw rh].
    unfold left, right, top, bottom in *. cbn [x y width height] in *. subst ty.
    crop_cases; repeat split; qc_lra. }
  destruct Hin as (Hin & Hw' & Hh'). repeat split; try apply Hin; try assumption.
  destruct Hin as (H1 & H2 & H3 & H4).
  apply cropRect_fixed; try assumption.
  - unfold left, right in *. qc_lra.
  - unfold top, bottom in *. qc_lra.
Qed.

(** C7 fails on the code, by the second guard of [cropRect].  With the
    target at (100, 0) of size 10 x 10, a rectangle below it is cropped to
    one result and cropped again to another; with the target at (0, 10),
    a rectangle that starts above it keeps its top outside the target;
    and a rectangle wholly to the left of a target at the origin comes
    out with a negative width. *)
Theorem cropRect_not_idempotent :
  cropRect Examples.target Examples.below
    = Mk (Examples.q 100) (Examples.q 10) (Examples.q 5) (Examples.q 0) /\
  cropRect Examples.target (cropRect Examples.target Examples.below)
    = Mk (Examples.q 100) (Examples.q 0) (Examples.q 5) (Examples.q 10) /\
  cropRect Examples.target (cropRect Examples.target Examples.below)
    <> cropRect Examples.target Examples.below /\
  top (cropRect Examples.lowered Examples.above) < top Examples.lowered /\
  width (cropRect Examples.origin Examples.leftward) < Js.zero.
Proof.
  repeat split; by_eval.
Qed.

End RectangleFacts.

(** ** Matrix *)

Section MatrixFacts.

Import Matrix.






End MatrixFacts.

(** ** Color *)

Section ColorFacts.

Import Color.

Lemma channel_id (v : Qc) : Js.zero <= v <= 1 -> channel v = v.
Proof.
  intros [H0 H1]. unfold channel, Js.min, Js.max.
  repeat case_decide; try reflexivity; qc_lra.
Qed.

Lemma channel_range (v : Qc) : Js.zero <= channel v <= 1.
Proof.
  unfold channel, Js.min, Js.max.
  repeat case_decide; split; qc_lra.
Qed.

(** C9, as the code has it: [mult] stores into the receiver and returns
    the receiver; no color is created and no other color changes.  For a
    receiver with components in the unit interval, red, green and blue
    keep their values and alpha becomes the product, clamped into the
    unit interval (so it is the product itself when that lies there). *)
Theorem mult_in_place (h : heap) (this : nat) (c : t) (alpha : Qc) :
  h !! this = Some c ->
  valid c ->
  mult this alpha h
    = Some (this, <[this := Mk (r c) (g c) (b c) (channel (a c * alpha))]> h) /\
  (Js.zero <= a c * alpha <= 1 -> channel (a c * alpha) = a c * alpha).
Proof.
  intros Hc (Hr & Hg & Hb & Ha). split; [|apply channel_id].
  unfold mult, set. rewrite Hc.
  unfold set_a, set_b, set_g, set_r. cbn [r g b a].
  rewrite (channel_id (r c)), (channel_id (g c)), (channel_id (b c)) by assumption.
  reflexivity.
Qed.

Lemma mult_in_place_witness :
  mult 0 Js.half {[ 0%nat := white ]}
    = Some (0%nat, <[0%nat := Mk 1 1 1 (channel (1 * Js.half))]> {[ 0%nat := white ]}).
Proof.
  refine (proj1 (mult_in_place {[ 0%nat := white ]} 0 white Js.half _ _)).
  - reflexivity.
  - repeat split; by_eval.
Defined.

(** C9 as stated fails: on a heap that holds white at
    reference 0, [mult] by one half returns reference 0 itself, the heap
    holds no color it did not hold before, and the receiver's alpha is
    one half afterwards; and [mult] by 2 on that result leaves alpha at
    1, not at the product. *)
Lemma mult_not_fresh :
  exists h',
    mult 0 Js.half {[ 0%nat := white ]} = Some (0%nat, h') /\
    dom h' = dom ({[ 0%nat := white ]} : heap) /\
    h' !! 0%nat = Some (Mk 1 1 1 Js.half) /\
    h' !! 0%nat <> Some white /\
    (exists h'', mult 0 (Js.of_Z 4) h' = Some (0%nat, h'') /\
                 a <$> h'' !! 0%nat = Some 1 /\
                 Js.half * Js.of_Z 4 <> 1).
Proof.
  eexists. split; [vm_compute; reflexivity|].
  split; [by_eval|].
  split; [by_eval|].
  split; [by_eval|].
  eexists. split; [vm_compute; reflexivity|].
  split; by_eval.
Qed.

End ColorFacts.

(** ** ObjectList *)

Section ObjectListFacts.

Import ObjectList.

Context {T : Type} `{EqDecision T}.

Implicit Types (this : ObjectList.t T) (o : option T).

Lemma add_sets_unsorted this o : unsorted (add this o) = true.
Proof. reflexivity. Qed.

Lemma remove_found this o i :
  indexOf o (objects this) = Some i ->
  remove this o
    = (Mk (<[i := None]> (objects this)) (unsorted this) true (_count this - 1), true).
Proof. intros Hi. unfold remove. by rewrite Hi. Qed.

Lemma remove_sets_dirty this o :
  (remove this o).2 = true -> dirty (remove this o).1 = true.
Proof.
  unfold remove. destruct (indexOf o (objects this)); [reflexivity | discriminate].
Qed.

Lemma remove_absent this o :
  indexOf o (objects this) = None -> remove this o = (this, false).
Proof. intros Hi. unfold remove. by rewrite Hi. Qed.

Lemma sort_when_sorted this cmp : unsorted this = false -> sort this cmp = this.
Proof. intros Hu. unfold sort. by rewrite Hu. Qed.

Lemma sort_resets_unsorted this cmp : unsorted (sort this cmp) = false.
Proof.
  unfold sort. destruct (unsorted this) eqn:Hu; [reflexivity | exact Hu].
Qed.

Lemma clean_when_not_dirty this : dirty this = false -> clean this = this.
Proof. intros Hd. unfold clean. by rewrite Hd. Qed.

(** The downward loop of [clean] drops exactly the [null] slots. *)
Lemma splice_nulls_prefix (l1 l2 : list (option T)) :
  foldl (fun l i => match l !! i with
                    | Some None => delete i l
                    | _ => l
                    end)
        (l1 ++ l2) (rev (seq 0 (length l1)))
  = filter (fun s => is_Some s) l1 ++ l2.
Proof.
  revert l2. induction l1 as [|s l1 IH] using rev_ind; intros l2; [reflexivity|].
  rewrite length_app, Nat.add_comm. cbn [length Nat.add].
  rewrite seq_S, rev_app_distr. cbn [rev app foldl Nat.add].
  rewrite <- (assoc_L (++)).
  rewrite lookup_app_r by lia. rewrite Nat.sub_diag. cbn [app lookup].
  rewrite filter_app.
  destruct s as [v|].
  - change (list_lookup 0%nat (Some v :: l2)) with (Some (Some v)). cbn iota.
    rewrite IH. rewrite filter_cons_True by eauto.
    rewrite filter_nil. by rewrite <- (assoc_L (++)).
  - change (list_lookup 0%nat (None :: l2)) with (Some (@None T)). cbn iota.
    rewrite delete_middle. rewrite IH.
    rewrite filter_cons_False by (intros [? ?]; discriminate).
    rewrite filter_nil. by rewrite app_nil_r.
Qed.

Lemma splice_nulls_filter (l : list (option T)) :
  splice_nulls l = filter (fun s => is_Some s) l.
Proof.
  unfold splice_nulls.
  rewrite <- (app_nil_r l) at 1. rewrite <- (app_nil_r l) at 2.
  rewrite (app_nil_r l) at 2.
  rewrite splice_nulls_prefix. apply app_nil_r.
Qed.

(** [clean] never writes the [dirty] flag. *)
Lemma clean_keeps_dirty this : dirty (clean this) = dirty this.
Proof.
  unfold clean. destruct (dirty this) eqn:Hd; [|exact Hd].
  case_decide; reflexivity.
Qed.

End ObjectListFacts.

(** C8 fails on the code: [clean] never clears [dirty].  After [add(1)],
    [add(2)], [remove(1)] the list is dirty; [clean] compacts it to the
    one live object and leaves [dirty] set, so the next [clean] passes
    the guard again. *)
Theorem clean_leaves_dirty :
  ObjectList.dirty Examples.one_removed = true /\
  ObjectList.objects Examples.one_removed = [None; Some 2%nat] /\
  ObjectList.objects (ObjectList.clean Examples.one_removed) = [Some 2%nat] /\
  ObjectList.dirty (ObjectList.clean Examples.one_removed) = true /\
  ObjectList.dirty (ObjectList.clean (ObjectList.clean Examples.one_removed)) = true.
Proof.
  repeat split; reflexivity.
Qed.
(** ** The world monad *)

Section MonadFacts.

Context {A B : Type}.

Lemma bind_ret_inv (m : M A) (k : A -> M B) (w w2 : World.t) (b : B) :
  bind m k w = (Ret b, w2) ->
  exists a w1, m w = (Ret a, w1) /\ k a w1 = (Ret b, w2).
Proof.
  unfold bind. destruct (m w) as [[a| |] w1]; intros Hk; try discriminate.
  eauto.
Qed.

Lemma bind_ret (m : M A) (k : A -> M B) (w w1 : World.t) (a : A) :
  m w = (Ret a, w1) -> bind m k w = k a w1.
Proof. intros Hm. unfold bind. by rewrite Hm. Qed.

Lemma bind_throw (m : M A) (k : A -> M B) (w w1 : World.t) (e : exn) :
  m w = (Throw e, w1) -> bind m k w = (Throw e, w1).
Proof. intros Hm. unfold bind. by rewrite Hm. Qed.

End MonadFacts.

Lemma pure_ret {A} (a : A) : pure (ret a).
Proof. intros w. reflexivity. Qed.

Lemma pure_throw {A} (e : exn) : pure (@throw A e).
Proof. intros w. reflexivity. Qed.

Lemma pure_deref {A} (o : option A) : pure (deref o).
Proof. destruct o; [apply pure_ret | apply pure_throw]. Qed.

Lemma pure_bind {A B} (m : M A) (k : A -> M B) :
  pure m -> (forall a, pure (k a)) -> pure (bind m k).
Proof.
  intros Hm Hk w. unfold bind. specialize (Hm w).
  destruct (m w) as [[a| |] w1]; cbn [snd] in *; subst; try reflexivity.
  apply Hk.
Qed.

Lemma pure_get_collider (r : nat) : pure (get_collider r).
Proof. intros w. unfold get_collider. apply pure_deref. Qed.

Lemma pure_get_entity (r : option nat) : pure (get_entity r).
Proof. intros w. unfold get_entity. apply pure_deref. Qed.

Lemma pure_get_scene (r : option nat) : pure (get_scene r).
Proof. intros w. unfold get_scene. apply pure_deref. Qed.

Lemma pure_get_mover (r : nat) : pure (get_mover r).
Proof.
  apply pure_bind; [apply pure_get_collider | intros c; apply pure_deref].
Qed.

Lemma pure_run {A} (m : M A) (w w1 : World.t) (o : outcome A) :
  pure m -> m w = (o, w1) -> w1 = w.
Proof. intros Hp Hm. specialize (Hp w). rewrite Hm in Hp. exact Hp. Qed.

Lemma get_collider_ret (r : nat) (w : World.t) (c : Collider.t) :
  World.colliders w !! r = Some c -> get_collider r w = (Ret c, w).
Proof. intros Hc. unfold get_collider. by rewrite Hc. Qed.

Lemma get_collider_inv (r : nat) (w w1 : World.t) (c : Collider.t) :
  get_collider r w = (Ret c, w1) -> World.colliders w !! r = Some c /\ w1 = w.
Proof.
  unfold get_collider. destruct (World.colliders w !! r); cbn; intros [= <- <-]; done.
Qed.

Lemma update_collider_ret (r : nat) (f : Collider.t -> Collider.t) (w : World.t) (c : Collider.t) :
  World.colliders w !! r = Some c ->
  update_collider r f w
    = (Ret tt, World.set_colliders w (<[r := f c]> (World.colliders w))).
Proof.
  intros Hc. unfold update_collider. by rewrite (bind_ret _ _ _ _ _ (get_collider_ret _ _ _ Hc)).
Qed.

Lemma update_collider_inv (r : nat) (f : Collider.t -> Collider.t) (w w1 : World.t) :
  update_collider r f w = (Ret tt, w1) ->
  exists c, World.colliders w !! r = Some c /\
            w1 = World.set_colliders w (<[r := f c]> (World.colliders w)).
Proof.
  unfold update_collider. intros Hu.
  apply bind_ret_inv in Hu as (c & w0 & Hg & Hu).
  apply get_collider_inv in Hg as [Hc ->]. injection Hu as <-. eauto.
Qed.

(** ** Collider queries *)

Section ColliderFacts.

Import ColliderOps.

Lemma pure_overlap (a b : nat) : pure (overlap a b).
Proof.
  unfold overlap.
  apply pure_bind; [apply pure_get_collider | intros ca].
  apply pure_bind; [apply pure_get_collider | intros cb].
  intros w. destruct (World.overlaptest w !! Collider.type ca) as [r|]; [|reflexivity].
  destruct (r !! Collider.type cb); reflexivity.
Qed.

Lemma pure_first_overlap (this : nat) (against : list nat) : pure (first_overlap this against).
Proof.
  induction against as [|other rest IH]; [apply pure_ret|].
  cbn [first_overlap]. apply pure_bind; [apply pure_overlap|].
  intros [|]; [apply pure_ret | exact IH].
Qed.

Lemma pure_all_overlaps (this : nat) (against : list nat) : pure (all_overlaps this against).
Proof.
  induction against as [|other rest IH]; [apply pure_ret|].
  cbn [all_overlaps]. apply pure_bind; [apply pure_overlap|].
  intros hit. apply pure_bind; [exact IH | intros l; apply pure_ret].
Qed.

Lemma pure_against_of (this : nat) (tag : string) : pure (against_of this tag).
Proof.
  unfold against_of.
  apply pure_bind; [apply pure_get_collider | intros c].
  apply pure_bind; [apply pure_get_entity | intros e].
  apply pure_bind; [apply pure_get_scene | intros s; apply pure_ret].
Qed.

Lemma translate_there (this : nat) (c : Collider.t) (dx dy : Qc) (w : World.t) :
  World.colliders w !! this = Some c ->
  (update_collider this (fun c => Collider.set_x c (Collider.x c + dx)) ;;;
   update_collider this (fun c => Collider.set_y c (Collider.y c + dy))) w
  = (Ret tt, translated this c dx dy w).
Proof.
  intros Hc. erewrite bind_ret by (apply update_collider_ret; exact Hc).
  erewrite update_collider_ret by (cbn; apply lookup_insert_eq).
  unfold translated. cbn. by rewrite insert_insert_eq.
Qed.

Lemma translate_back (this : nat) (c : Collider.t) (dx dy : Qc) (w : World.t) :
  World.colliders w !! this = Some c ->
  (update_collider this (fun c => Collider.set_x c (Collider.x c - dx)) ;;;
   update_collider this (fun c => Collider.set_y c (Collider.y c - dy)))
    (translated this c dx dy w)
  = (Ret tt, w).
Proof.
  intros Hc. unfold translated.
  erewrite bind_ret by (apply update_collider_ret; cbn; apply lookup_insert_eq).
  erewrite update_collider_ret by (cbn; apply lookup_insert_eq).
  f_equal. destruct w as [ot dl es ss cs lg]. unfold World.set_colliders. cbn in *.
  f_equal. rewrite !insert_insert_eq. apply insert_id. rewrite Hc. f_equal.
  destruct c as [e [px py] tg sh mv].
  unfold Collider.set_x, Collider.set_y, Collider.x, Collider.y, Vector.set_x, Vector.set_y.
  cbn. f_equal. f_equal; ring.
Qed.

(** The body of [collide] and of [collideAll] once the receiver and the
    collider list are known: the scan runs on the translated world, and
    only a scan that returns is followed by the way back. *)
Lemma translate_there_then {A} (this : nat) (c : Collider.t) (dx dy : Qc) (w : World.t)
    (k : M A) :
  World.colliders w !! this = Some c ->
  (update_collider this (fun c => Collider.set_x c (Collider.x c + dx)) ;;;
   update_collider this (fun c => Collider.set_y c (Collider.y c + dy)) ;;; k) w
  = k (translated this c dx dy w).
Proof.
  intros Hc. pose proof (translate_there this c dx dy w Hc) as Ht.
  unfold bind in *.
  destruct (update_collider this _ w) as [[[]| |] w1]; try discriminate.
  by rewrite Ht.
Qed.

Lemma translate_back_then {A} (this : nat) (c : Collider.t) (dx dy : Qc) (w : World.t)
    (k : M A) :
  World.colliders w !! this = Some c ->
  (update_collider this (fun c => Collider.set_x c (Collider.x c - dx)) ;;;
   update_collider this (fun c => Collider.set_y c (Collider.y c - dy)) ;;; k)
    (translated this c dx dy w)
  = k w.
Proof.
  intros Hc. pose proof (translate_back this c dx dy w Hc) as Ht.
  unfold bind in *.
  destruct (update_collider this _ (translated this c dx dy w)) as [[[]| |] w1];
    try discriminate.
  by rewrite Ht.
Qed.

Lemma against_of_inv (this : nat) (tag : string) (w w1 : World.t) (ag : list nat) :
  against_of this tag w = (Ret ag, w1) ->
  w1 = w /\ exists c, World.colliders w !! this = Some c.
Proof.
  intros Ha. split; [exact (pure_run _ _ _ _ (pure_against_of this tag) Ha)|].
  unfold against_of in Ha. apply bind_ret_inv in Ha as (c & w0 & Hg & _).
  apply get_collider_inv in Hg as [Hc _]. eauto.
Qed.

Lemma collide_run (this : nat) (tag : string) (x y : option Qc) (w : World.t)
    (c : Collider.t) (ag : list nat) :
  World.colliders w !! this = Some c ->
  against_of this tag w = (Ret ag, w) ->
  collide this tag x y w =
    let w1 := translated this c (Js.or_default x Js.zero) (Js.or_default y Js.zero) w in
    match (first_overlap this ag w1).1 with
    | Ret r => (Ret r, w)
    | Throw e => (Throw e, w1)
    | Unmodelled => (Unmodelled, w1)
    end.
Proof.
  intros Hc Ha. unfold collide. rewrite (bind_ret _ _ _ _ _ Ha).
  rewrite (translate_there_then _ _ _ _ _ _ Hc). cbv zeta.
  set (w1 := translated _ _ _ _ _).
  pose proof (pure_first_overlap this ag w1) as Hp.
  unfold bind at 1. destruct (first_overlap this ag w1) as [[r|e|] w2];
    cbn [fst snd] in *; subst w2; try reflexivity.
  subst w1. by rewrite (translate_back_then _ _ _ _ _ _ Hc).
Qed.

Lemma collideAll_run (this : nat) (tag : string) (x y : option Qc) (w : World.t)
    (c : Collider.t) (ag : list nat) :
  World.colliders w !! this = Some c ->
  against_of this tag w = (Ret ag, w) ->
  collideAll this tag x y w =
    let w1 := translated this c (Js.or_default x Js.zero) (Js.or_default y Js.zero) w in
    match (all_overlaps this ag w1).1 with
    | Ret r => (Ret r, w)
    | Throw e => (Throw e, w1)
    | Unmodelled => (Unmodelled, w1)
    end.
Proof.
  intros Hc Ha. unfold collideAll. rewrite (bind_ret _ _ _ _ _ Ha).
  rewrite (translate_there_then _ _ _ _ _ _ Hc). cbv zeta.
  set (w1 := translated _ _ _ _ _).
  pose proof (pure_all_overlaps this ag w1) as Hp.
  unfold bind at 1. destruct (all_overlaps this ag w1) as [[r|e|] w2];
    cbn [fst snd] in *; subst w2; try reflexivity.
  subst w1. by rewrite (translate_back_then _ _ _ _ _ _ Hc).
Qed.

Lemma collide_returns (this : nat) (tag : string) (x y : option Qc) (w w1 : World.t)
    (r : option nat) :
  collide this tag x y w = (Ret r, w1) -> w1 = w.
Proof.
  intros Hr.
  destruct (against_of this tag w) as [[ag| |] w0] eqn:Ha.
  - destruct (against_of_inv _ _ _ _ _ Ha) as [-> [c Hc]].
    rewrite (collide_run _ _ _ _ _ _ _ Hc Ha) in Hr. cbv zeta in Hr.
    destruct (first_overlap _ _ _).1; by inversion Hr.
  - unfold collide in Hr. by rewrite (bind_throw _ _ _ _ _ Ha) in Hr.
  - unfold collide, bind in Hr. by rewrite Ha in Hr.
Qed.

Lemma collideAll_returns (this : nat) (tag : string) (x y : option Qc) (w w1 : World.t)
    (l : list nat) :
  collideAll this tag x y w = (Ret l, w1) -> w1 = w.
Proof.
  intros Hr.
  destruct (against_of this tag w) as [[ag| |] w0] eqn:Ha.
  - destruct (against_of_inv _ _ _ _ _ Ha) as [-> [c Hc]].
    rewrite (collideAll_run _ _ _ _ _ _ _ Hc Ha) in Hr. cbv zeta in Hr.
    destruct (all_overlaps _ _ _).1; by inversion Hr.
  - unfold collideAll in Hr. by rewrite (bind_throw _ _ _ _ _ Ha) in Hr.
  - unfold collideAll, bind in Hr. by rewrite Ha in Hr.
Qed.


Lemma collides_returns (this : nat) (tags : list string) (x y : option Qc) (w w1 : World.t)
    (r : option nat) :
  collides this tags x y w = (Ret r, w1) -> w1 = w.
Proof.
  induction tags as [|tag rest IH]; cbn [collides]; intros Hr.
  - by inversion Hr.
  - apply bind_ret_inv in Hr as (hit & w0 & Hc & Hr).
    apply collide_returns in Hc as ->.
    destruct hit; [by inversion Hr | by apply IH].
Qed.

Lemma against_of_run (this : nat) (tag : string) (w : World.t) (ag : list nat) :
  (against_of this tag w).1 = Ret ag -> against_of this tag w = (Ret ag, w).
Proof.
  intros Ha. pose proof (pure_against_of this tag w) as Hp.
  destruct (against_of this tag w) as [o w1]. cbn [fst snd] in *. by subst.
Qed.




(** *** The registry *)

(** After [DefaultOverlapTests] the cell for (Hitbox, Hitbox) holds the
    test with its arguments swapped: with [fromType = toType] the second
    assignment of [registerOverlapTest] lands on the cell of the
    first. *)
Lemma register_to_cell (fromType toType : string) (test : Collider.test) (reg : registry) :
  exists r, registerOverlapTest fromType toType test reg !! toType = Some r /\
            r !! fromType = Some (fun es a b => test es b a).
Proof.
  unfold registerOverlapTest. cbv zeta. eexists. split.
  - apply lookup_insert_eq.
  - apply lookup_insert_eq.
Qed.

Lemma register_from_row (fromType toType : string) (test : Collider.test) (reg : registry) :
  fromType <> toType ->
  registerOverlapTest fromType toType test reg !! fromType
    = Some (<[toType := fun es a b => test es a b]> (row reg fromType)).
Proof.
  intros Hne. unfold registerOverlapTest. cbv zeta.
  rewrite lookup_insert_ne by done. rewrite lookup_insert_eq. do 2 f_equal.
  unfold row.
  destruct (reg !! fromType) as [r|] eqn:Hr.
  - destruct (reg !! toType) eqn:Ht; [by rewrite Hr|].
    by rewrite lookup_insert_ne, Hr by done.
  - rewrite lookup_insert_ne by done.
    destruct (reg !! toType) eqn:Ht.
    + by rewrite lookup_insert_eq.
    + rewrite lookup_insert_ne by done. by rewrite lookup_insert_eq.
Qed.

Lemma default_hitbox_cell (reg : registry) :
  exists r, DefaultOverlapTests reg !! "Hitbox" = Some r /\
            r !! "Hitbox" = Some (fun es a b => hitbox_hitbox es b a).
Proof.
  unfold DefaultOverlapTests.
  rewrite register_from_row by discriminate.
  destruct (register_to_cell "Hitbox" "Hitbox" hitbox_hitbox reg) as (r & Hr & Hc).
  eexists. split; [reflexivity|].
  rewrite lookup_insert_ne by discriminate. unfold row. by rewrite Hr.
Qed.

Lemma js_gt_true (a b : Qc) : js_gt (Some a) (Some b) = true <-> b < a.
Proof. unfold js_gt. apply bool_decide_eq_true. Qed.

Lemma overlap_hitboxes (w : World.t) (a b : nat) (ca cb : Collider.t) (reg : registry) :
  World.overlaptest w = DefaultOverlapTests reg ->
  World.colliders w !! a = Some ca ->
  World.colliders w !! b = Some cb ->
  Collider.type ca = "Hitbox" -> Collider.type cb = "Hitbox" ->
  overlap a b w = (hitbox_hitbox (World.entities w) cb ca, w).
Proof.
  intros Hreg Ha Hb Hta Htb. unfold overlap.
  rewrite (bind_ret _ _ _ _ _ (get_collider_ret _ _ _ Ha)).
  rewrite (bind_ret _ _ _ _ _ (get_collider_ret _ _ _ Hb)).
  destruct (default_hitbox_cell reg) as (r & Hr & Hc).
  rewrite Hreg, Hta, Hr, Htb, Hc. reflexivity.
Qed.

(** C3: with the default tests registered, [Collider.overlap] on two
    hitboxes returns true exactly when the open-interval condition holds
    on their scene bounds, and it always returns; the boxes
    (0, 0, 10, 10) and (10, 0, 10, 10) do not overlap, (0, 0, 10, 10) and
    (9, 0, 10, 10) do. *)
Theorem hitbox_overlap_open (w : World.t) (reg : registry) (a b : nat) (ca cb : Collider.t)
    (la ta wa ha lb tb wb hb : Qc) :
  World.overlaptest w = DefaultOverlapTests reg ->
  World.colliders w !! a = Some ca ->
  World.colliders w !! b = Some cb ->
  Collider.shape_of ca = Collider.Hitbox la ta wa ha ->
  Collider.shape_of cb = Collider.Hitbox lb tb wb hb ->
  let pa := Collider.scenePosition (World.entities w) ca in
  let pb := Collider.scenePosition (World.entities w) cb in
  let sceneLeft_a := Vector.x pa + la in
  let sceneRight_a := Vector.x pa + la + wa in
  let sceneTop_a := Vector.y pa + ta in
  let sceneBottom_a := Vector.y pa + ta + ha in
  let sceneLeft_b := Vector.x pb + lb in
  let sceneRight_b := Vector.x pb + lb + wb in
  let sceneTop_b := Vector.y pb + tb in
  let sceneBottom_b := Vector.y pb + tb + hb in
  (exists v, overlap a b w = (Ret v, w)) /\
  (overlap a b w = (Ret true, w) <->
     sceneLeft_b < sceneRight_a /\ sceneTop_b < sceneBottom_a /\
     sceneLeft_a < sceneRight_b /\ sceneTop_a < sceneBottom_b) /\
  (overlap 0 1 Examples.boxes).1 = Ret false /\
  (overlap 0 2 Examples.boxes).1 = Ret true.
Proof.
  intros Hreg Ha Hb Hsa Hsb. cbv zeta.
  assert (Hov : overlap a b w = (hitbox_hitbox (World.entities w) cb ca, w)).
  { apply (overlap_hitboxes w a b ca cb reg); try assumption;
      unfold Collider.type; [by rewrite Hsa | by rewrite Hsb]. }
  rewrite Hov. unfold hitbox_hitbox, js_lt,
    Hitbox.sceneLeft, Hitbox.sceneRight, Hitbox.sceneTop, Hitbox.sceneBottom.
  rewrite Hsa, Hsb. unfold js_gt, Collider.scenePosition.
  cbv beta iota. cbn [Vector.x Vector.y].
  split; [eauto|]. split; [|split; vm_compute; reflexivity].
  split.
  - intros [= Hv]. rewrite !andb_true_iff, !bool_decide_eq_true in Hv. tauto.
  - intros (H1 & H2 & H3 & H4). do 2 f_equal.
    rewrite !andb_true_iff, !bool_decide_eq_true. tauto.
Qed.

Lemma hitbox_overlap_open_witness :
  overlap 0 2 Examples.boxes = (Ret true, Examples.boxes).
Proof.
  pose proof (hitbox_overlap_open Examples.boxes ∅ 0 2
                (Hitbox.new (Examples.q 0) (Examples.q 0) (Examples.q 10) (Examples.q 10))
                (Hitbox.new (Examples.q 9) (Examples.q 0) (Examples.q 10) (Examples.q 10))
                _ _ _ _ _ _ _ _
                eq_refl eq_refl eq_refl eq_refl eq_refl) as (_ & Hiff & _).
  apply Hiff. repeat split; by_eval.
Defined.




End ColliderFacts.
(** ** Whole and fractional parts *)

Section JsFacts.

Lemma of_Z_plus (a b : Z) : Js.of_Z (a + b) = Js.of_Z a + Js.of_Z b.
Proof.
  unfold Js.of_Z. apply Qc_is_canon. unfold Qcplus, Q2Qc. cbn [this].
  rewrite !Qred_correct. rewrite inject_Z_plus. reflexivity.
Qed.

Lemma of_Z_this (z : Z) : (this (Js.of_Z z) == inject_Z z)%Q.
Proof. unfold Js.of_Z, Q2Qc. cbn [this]. apply Qred_correct. Qed.

Lemma of_Z_minus (a b : Z) : Js.of_Z (a - b) = Js.of_Z a - Js.of_Z b.
Proof.
  unfold Js.of_Z. apply Qc_is_canon. unfold Qcminus, Qcplus, Qcopp, Q2Qc. cbn [this].
  rewrite !Qred_correct. unfold Z.sub. rewrite inject_Z_plus, inject_Z_opp. reflexivity.
Qed.

Lemma of_Z_lt (a b : Z) : Js.of_Z a < Js.of_Z b <-> (a < b)%Z.
Proof. unfold Qclt. rewrite !of_Z_this. by rewrite <- Zlt_Qlt. Qed.

Lemma of_Z_le (a b : Z) : Js.of_Z a <= Js.of_Z b <-> (a <= b)%Z.
Proof. unfold Qcle. rewrite !of_Z_this. by rewrite <- Zle_Qle. Qed.





End JsFacts.
(** ** Physics *)

Section PhysicsFacts.

Import ColliderOps Physics PhysicsFields.

Lemma get_mover_ret (this : nat) (w : World.t) (c : Collider.t) (p : PhysicsFields.t) :
  World.colliders w !! this = Some c -> Collider.mover c = Some p ->
  get_mover this w = (Ret p, w).
Proof.
  intros Hc Hp. unfold get_mover.
  rewrite (bind_ret _ _ _ _ _ (get_collider_ret _ _ _ Hc)). by rewrite Hp.
Qed.

Lemma entity_add_ret (ax : axis) (e : nat) (n : Qc) (w : World.t) (ent : Entity.t) :
  World.entities w !! e = Some ent ->
  entity_add ax (Some e) n w = (Ret tt, advance ax e n w).
Proof.
  intros He. unfold entity_add, update_entity, bind, get_entity, advance.
  cbn. by rewrite He.
Qed.

Lemma set_remainder_comp_ret (ax : axis) (this : nat) (n : Qc) (w : World.t)
    (c : Collider.t) (p : PhysicsFields.t) :
  World.colliders w !! this = Some c -> Collider.mover c = Some p ->
  set_remainder_comp ax this n w = (Ret tt, carrying ax this c p n w).
Proof.
  intros Hc Hp. unfold set_remainder_comp, update_mover.
  rewrite (bind_ret _ _ _ _ _ (get_mover_ret _ _ _ _ Hc Hp)).
  by rewrite (update_collider_ret _ _ _ _ Hc).
Qed.

(** What [advance] keeps. *)
Lemma advance_colliders (ax : axis) (e : nat) (n : Qc) (w : World.t) :
  World.colliders (advance ax e n w) = World.colliders w.
Proof. unfold advance. by destruct (World.entities w !! e). Qed.

Lemma advance_log (ax : axis) (e : nat) (n : Qc) (w : World.t) :
  World.log (advance ax e n w) = World.log w.
Proof. unfold advance. by destruct (World.entities w !! e). Qed.

Lemma advance_entity (ax : axis) (e : nat) (n : Qc) (w : World.t) (ent : Entity.t) :
  World.entities w !! e = Some ent ->
  World.entities (advance ax e n w) !! e = Some (moved ax n ent).
Proof. intros He. unfold advance. rewrite He. cbn. apply lookup_insert_eq. Qed.

Lemma advance_other_entity (ax : axis) (e e' : nat) (n : Qc) (w : World.t) :
  e <> e' ->
  World.entities (advance ax e n w) !! e' = World.entities w !! e'.
Proof.
  intros Hne. unfold advance. destruct (World.entities w !! e); [|done].
  cbn. by apply lookup_insert_ne.
Qed.

Lemma iter_advance_colliders (ax : axis) (e : nat) (n : Qc) (k : nat) (w : World.t) :
  World.colliders (Nat.iter k (advance ax e n) w) = World.colliders w.
Proof.
  induction k as [|k IH]; [reflexivity|]. rewrite Nat.iter_succ. by rewrite advance_colliders.
Qed.

Lemma iter_advance_log (ax : axis) (e : nat) (n : Qc) (k : nat) (w : World.t) :
  World.log (Nat.iter k (advance ax e n) w) = World.log w.
Proof.
  induction k as [|k IH]; [reflexivity|]. rewrite Nat.iter_succ. by rewrite advance_log.
Qed.

Lemma comp_set_comp (ax : axis) (v : Vector.t) (n : Qc) : comp ax (set_comp ax v n) = n.
Proof. by destruct ax. Qed.

(** After [k] unit steps the entity has moved by [k] times the sign on
    the axis, and not at all on the other axis. *)
Lemma iter_advance_entity (ax : axis) (e : nat) (n : Qc) (k : nat) (w : World.t)
    (ent : Entity.t) :
  World.entities w !! e = Some ent ->
  exists ent',
    World.entities (Nat.iter k (advance ax e n) w) !! e = Some ent' /\
    Entity.scene ent' = Entity.scene ent /\
    comp ax (Entity.position ent')
      = comp ax (Entity.position ent) + Js.of_Z (Z.of_nat k) * n /\
    match ax with
    | Horizontal => Entity.y ent' = Entity.y ent
    | Vertical => Entity.x ent' = Entity.x ent
    end.
Proof.
  intros He. induction k as [|k (ent' & Hk & Hs & Hc & Ho)].
  - exists ent. repeat split; [exact He | | by destruct ax].
    change (Js.of_Z (Z.of_nat 0)) with Js.zero. unfold Js.zero. ring.
  - exists (moved ax n ent'). rewrite Nat.iter_succ.
    split; [by apply advance_entity|]. split; [exact Hs|]. split.
    + unfold moved. cbn [Entity.position]. rewrite comp_set_comp, Hc.
      rewrite Nat2Z.inj_succ. unfold Z.succ. rewrite of_Z_plus.
      change (Js.of_Z 1) with 1. ring.
    + destruct ax; exact Ho.
Qed.

(** A probe that returns leaves the world as it was. *)
Lemma probe_run (ax : axis) (this : nat) (solids : list string) (sign : Qc) (w : World.t)
    (r : option nat) :
  (probe ax this solids sign w).1 = Ret r -> probe ax this solids sign w = (Ret r, w).
Proof.
  intros Hr. destruct (probe ax this solids sign w) as [o w1] eqn:Hp.
  cbn [fst] in Hr. subst o. f_equal.
  destruct ax; unfold probe in Hp; by apply collides_returns in Hp.
Qed.

Lemma isMe_none (entity : option nat) (w : World.t) : isMe None entity w = (Ret false, w).
Proof. reflexivity. Qed.

Lemma isMe_some (h : nat) (hc : Collider.t) (e : nat) (w : World.t) :
  World.colliders w !! h = Some hc ->
  isMe (Some h) (Some e) w = (Ret (bool_decide (Collider._entity hc = Some e)), w).
Proof.
  intros Hh. unfold isMe. rewrite (bind_ret _ _ _ _ _ (get_collider_ret _ _ _ Hh)).
  destruct (Collider._entity hc) as [he|]; [|reflexivity]. reflexivity.
Qed.

Lemma call_all_run (cbs : list nat) (horizontal : bool) (hit : nat) (w : World.t) :
  call_all cbs horizontal hit w
  = (Ret tt, World.set_log w (World.log w ++ map (fun cb => CallCollide cb horizontal hit) cbs)).
Proof.
  revert w. induction cbs as [|cb rest IH]; intros w; cbn [call_all map].
  - destruct w. unfold ret, World.set_log. cbn. by rewrite app_nil_r.
  - unfold bind, record_call. rewrite IH. destruct w. unfold World.set_log. cbn.
    by rewrite <- (assoc_L (++)).
Qed.

Lemma blocked_run (ax : axis) (this hit : nat) (w : World.t) (c : Collider.t)
    (p : PhysicsFields.t) :
  World.colliders w !! this = Some c -> Collider.mover c = Some p ->
  blocked ax this hit w = (Ret false, halted ax this c p hit w).
Proof.
  intros Hc Hp. unfold blocked.
  rewrite (bind_ret _ _ _ _ _ (set_remainder_comp_ret _ _ _ _ _ _ Hc Hp)).
  set (p' := set_remainder p (set_comp ax (remainder p) Js.zero)).
  assert (Hg : get_mover this (carrying ax this c p Js.zero w)
               = (Ret p', carrying ax this c p Js.zero w)).
  { eapply get_mover_ret; [apply lookup_insert_eq | reflexivity]. }
  rewrite (bind_ret _ _ _ _ _ Hg).
  unfold halted, collision_calls.
  replace (axis_callback ax p') with (axis_callback ax p) by (by destruct ax).
  replace (onCollide p') with (onCollide p) by reflexivity.
  destruct (axis_callback ax p) as [cb|].
  - unfold bind at 1. unfold record_call at 1.
    unfold bind. rewrite call_all_run. destruct w. unfold carrying, World.set_log,
      World.set_colliders, ret. cbn. by rewrite <- (assoc_L (++)).
  - unfold bind at 1. unfold ret at 1.
    unfold bind. rewrite call_all_run. destruct w. reflexivity.
Qed.

(** One round of the loop on a free probe: the entity takes the unit
    step and the loop goes on. *)
Lemma sweep_free (ax : axis) (this e : nat) (sign : Qc) (n : nat) (w : World.t)
    (c : Collider.t) (p : PhysicsFields.t) (ent : Entity.t) (r : option nat) :
  World.colliders w !! this = Some c -> Collider.mover c = Some p ->
  World.entities w !! e = Some ent ->
  (probe ax this (solids p) sign w).1 = Ret r ->
  (r = None \/
   exists h hc, r = Some h /\ World.colliders w !! h = Some hc /\
                Collider._entity hc = Some e) ->
  sweep ax this (Some e) sign (S n) w = sweep ax this (Some e) sign n (advance ax e sign w).
Proof.
  intros Hc Hp He Hr Hfree. cbn [sweep].
  rewrite (bind_ret _ _ _ _ _ (get_mover_ret _ _ _ _ Hc Hp)).
  rewrite (bind_ret _ _ _ _ _ (probe_run _ _ _ _ _ _ Hr)).
  destruct Hfree as [-> | (h & hc & -> & Hh & Hme)].
  - rewrite (bind_ret _ _ _ _ _ (isMe_none _ _)).
    by rewrite (bind_ret _ _ _ _ _ (entity_add_ret _ _ _ _ _ He)).
  - rewrite (bind_ret _ _ _ _ _ (isMe_some _ _ _ _ Hh)).
    rewrite bool_decide_eq_true_2 by exact Hme.
    by rewrite (bind_ret _ _ _ _ _ (entity_add_ret _ _ _ _ _ He)).
Qed.

(** One round of the loop on a blocking probe. *)
Lemma sweep_hit (ax : axis) (this e : nat) (sign : Qc) (n : nat) (w : World.t)
    (c : Collider.t) (p : PhysicsFields.t) (hit : nat) (hc : Collider.t) :
  World.colliders w !! this = Some c -> Collider.mover c = Some p ->
  (probe ax this (solids p) sign w).1 = Ret (Some hit) ->
  World.colliders w !! hit = Some hc ->
  Collider._entity hc <> Some e ->
  sweep ax this (Some e) sign (S n) w = (Ret false, halted ax this c p hit w).
Proof.
  intros Hc Hp Hr Hh Hme. cbn [sweep].
  rewrite (bind_ret _ _ _ _ _ (get_mover_ret _ _ _ _ Hc Hp)).
  rewrite (bind_ret _ _ _ _ _ (probe_run _ _ _ _ _ _ Hr)).
  rewrite (bind_ret _ _ _ _ _ (isMe_some _ _ _ _ Hh)).
  rewrite bool_decide_eq_false_2 by exact Hme.
  by apply blocked_run.
Qed.

Lemma sweep_blocked (ax : axis) (this e : nat) (sign : Qc) (c : Collider.t)
    (p : PhysicsFields.t) (hit : nat) (hc : Collider.t) (k : nat) :
  forall (n : nat) (w : World.t) (ent : Entity.t),
  World.colliders w !! this = Some c -> Collider.mover c = Some p ->
  World.entities w !! e = Some ent ->
  (k < n)%nat ->
  (forall i, (i < k)%nat ->
     exists r, (probe ax this (solids p) sign (Nat.iter i (advance ax e sign) w)).1 = Ret r /\
       (r = None \/
        exists h hc', r = Some h /\ World.colliders w !! h = Some hc' /\
                      Collider._entity hc' = Some e)) ->
  (probe ax this (solids p) sign (Nat.iter k (advance ax e sign) w)).1 = Ret (Some hit) ->
  World.colliders w !! hit = Some hc ->
  Collider._entity hc <> Some e ->
  sweep ax this (Some e) sign n w
    = (Ret false, halted ax this c p hit (Nat.iter k (advance ax e sign) w)).
Proof.
  induction k as [|k IH]; intros n w ent Hc Hp He Hkn Hfree Hhit Hh Hme.
  - destruct n as [|n]; [lia|]. by apply (sweep_hit ax this e sign n w c p hit hc).
  - destruct n as [|n]; [lia|].
    destruct (Hfree 0%nat ltac:(lia)) as (r & Hr & Hf).
    rewrite (sweep_free ax this e sign n w c p ent r Hc Hp He Hr Hf).
    rewrite Nat.iter_succ_r.
    apply (IH n (advance ax e sign w) (moved ax sign ent)).
    + by rewrite advance_colliders.
    + exact Hp.
    + by apply advance_entity.
    + lia.
    + intros i Hi. destruct (Hfree (S i) ltac:(lia)) as (r' & Hr' & Hf').
      rewrite Nat.iter_succ_r in Hr'. exists r'. split; [exact Hr'|].
      by rewrite advance_colliders.
    + by rewrite <- Nat.iter_succ_r.
    + by rewrite advance_colliders.
    + exact Hme.
Qed.

(** The recursion of [sweep] runs as often as the source's loop: the
    number of rounds is the whole number [Math.abs(Math.round(amount))]. *)
Lemma steps_exact (amount : Qc) :
  Js.of_Z (Z.of_nat (steps amount)) = Js.abs (Js.round amount).
Proof.
  unfold steps, Js.round. set (z := Js.floor (amount + Js.half)).
  assert (Ha : Js.abs (Js.of_Z z) = Js.of_Z (Z.abs z)).
  { unfold Js.abs. change Js.zero with (Js.of_Z 0). case_decide as Hz.
    - apply (proj1 (of_Z_lt _ _)) in Hz. rewrite Z.abs_neq by lia.
      change (Js.of_Z (- z)) with (Js.of_Z (0 - z)). rewrite of_Z_minus.
      change (Js.of_Z 0) with Js.zero. unfold Js.zero. ring.
    - rewrite of_Z_lt in Hz. by rewrite Z.abs_eq by lia. }
  rewrite Ha.
  assert (Hf : Js.floor (Js.of_Z (Z.abs z)) = Z.abs z).
  { unfold Js.floor. rewrite of_Z_this. apply Qfloor_Z. }
  rewrite Hf. rewrite Z2Nat.id by lia. reflexivity.
Qed.

Lemma moveAbsolute_ghost (ax : axis) (this e : nat) (w : World.t)
    (c : Collider.t) (p : PhysicsFields.t) (ent : Entity.t) (amount : Qc) :
  World.colliders w !! this = Some c ->
  Collider.mover c = Some p ->
  Collider._entity c = Some e ->
  World.entities w !! e = Some ent ->
  solids p = [] ->
  moveAbsolute ax this amount w = (Ret true, advance ax e (Js.round amount) w).
Proof.
  intros Hc Hp He Hent Hs. unfold moveAbsolute.
  rewrite (bind_ret _ _ _ _ _ (get_collider_ret _ _ _ Hc)).
  rewrite (bind_ret _ _ _ _ _ (get_mover_ret _ _ _ _ Hc Hp)).
  rewrite Hs, He. cbn [length]. rewrite decide_True by lia.
  by rewrite (bind_ret _ _ _ _ _ (entity_add_ret _ _ _ _ _ Hent)).
Qed.

(** C1: [moveXAbsolute] and [moveYAbsolute] ([ax] is the axis) on a mover
    [this] that sits on the entity [e].  With no solids the rounded amount
    is added to the entity's coordinate, the call returns true and the log
    of callback calls is as before.  With solids, if the first [k] probes
    of the sweep are free (no hit, or a hit on a collider of the mover's
    own entity) and the next probe returns a collider [hit] of another
    entity (or of none), the call returns false in the world where the
    entity has taken just the [k] free unit steps, the axis remainder is
    zero, and the log has grown by exactly the axis callback (if set)
    called once with [hit], then each callback of [onCollide] called once
    with [(isHorizontal, hit)]. *)
Theorem moveAbsolute_halts_on_solid (ax : axis) (this e : nat) (w : World.t)
    (c : Collider.t) (p : PhysicsFields.t) (ent : Entity.t) (amount : Qc) :
  World.colliders w !! this = Some c ->
  Collider.mover c = Some p ->
  Collider._entity c = Some e ->
  World.entities w !! e = Some ent ->
  (solids p = [] ->
     moveAbsolute ax this amount w = (Ret true, advance ax e (Js.round amount) w) /\
     World.log (advance ax e (Js.round amount) w) = World.log w /\
     World.entities (advance ax e (Js.round amount) w) !! e
       = Some (moved ax (Js.round amount) ent)) /\
  (solids p <> [] ->
   forall (k hit : nat) (hc : Collider.t),
     let sign := Calc.sign amount in
     let at_step i := Nat.iter i (advance ax e sign) w in
     (k < steps amount)%nat ->
     (forall i, (i < k)%nat ->
        exists r, (probe ax this (solids p) sign (at_step i)).1 = Ret r /\
          (r = None \/
           exists h hc', r = Some h /\ World.colliders w !! h = Some hc' /\
                         Collider._entity hc' = Some e)) ->
     (probe ax this (solids p) sign (at_step k)).1 = Ret (Some hit) ->
     World.colliders w !! hit = Some hc ->
     Collider._entity hc <> Some e ->
     moveAbsolute ax this amount w = (Ret false, halted ax this c p hit (at_step k)) /\
     World.log (halted ax this c p hit (at_step k))
       = World.log w ++ collision_calls ax p hit /\
     (remainder <$> (World.colliders (halted ax this c p hit (at_step k)) !! this
                       ≫= Collider.mover))
       = Some (set_comp ax (remainder p) Js.zero) /\
     exists ent',
       World.entities (halted ax this c p hit (at_step k)) !! e = Some ent' /\
       comp ax (Entity.position ent')
         = comp ax (Entity.position ent) + Js.of_Z (Z.of_nat k) * sign).
Proof.
  intros Hc Hp He Hent. split.
  - intros Hs. split; [|split].
    + by apply (moveAbsolute_ghost ax this e w c p ent).
    + apply advance_log.
    + by apply advance_entity.
  - intros Hs k hit hc sign at_step Hk Hfree Hhit Hh Hme.
    split; [|split; [|split]].
    + unfold moveAbsolute.
      rewrite (bind_ret _ _ _ _ _ (get_collider_ret _ _ _ Hc)).
      rewrite (bind_ret _ _ _ _ _ (get_mover_ret _ _ _ _ Hc Hp)).
      rewrite decide_False by (destruct (solids p); [done | cbn; lia]).
      rewrite He.
      by apply (sweep_blocked ax this e sign c p hit hc k (steps amount) w ent).
    + unfold halted, at_step. cbn [World.log]. by rewrite iter_advance_log.
    + unfold halted. cbn [World.colliders]. by rewrite lookup_insert_eq.
    + destruct (iter_advance_entity ax e sign k w ent Hent) as (ent' & Hk' & _ & Hx & _).
      exists ent'. split; [exact Hk' | exact Hx].
Qed.

Lemma moveAbsolute_halts_on_solid_witness :
  moveXAbsolute 0 (Js.of_Z 5) Examples.level
    = (Ret false,
       halted Horizontal 0 Examples.player
         (PhysicsFields.Mk ["solid"] [8%nat; 9%nat] (Some 7%nat) None
            (Vector.Mk (Examples.q 0) (Examples.q 0))
            (Vector.Mk (Examples.q 0) (Examples.q 0)))
         1 (Nat.iter 2 (advance Horizontal 0 (Calc.sign (Js.of_Z 5))) Examples.level)) /\
  moveXAbsolute 0 Js.half Examples.ghost_level
    = (Ret true, advance Horizontal 0 (Js.round Js.half) Examples.ghost_level).
Proof.
  split.
  - refine (proj1 (proj2 (moveAbsolute_halts_on_solid Horizontal 0 0 Examples.level
                            Examples.player _ _ (Js.of_Z 5) eq_refl eq_refl eq_refl eq_refl)
                     _ 2%nat 1%nat Examples.wall _ _ _ eq_refl _)).
    + discriminate.
    + vm_compute. lia.
    + intros i Hi. exists None. split; [|by left].
      destruct i as [|[|i]]; [vm_compute; reflexivity | vm_compute; reflexivity | lia].
    + vm_compute. reflexivity.
    + discriminate.
  - refine (proj1 (proj1 (moveAbsolute_halts_on_solid Horizontal 0 0 Examples.ghost_level
                            Examples.ghost _ _ Js.half eq_refl eq_refl eq_refl eq_refl)
                     eq_refl)).
Defined.

(** What the probe returns is the first overlapping collider of the
    [solid] lists.  When the mover carries a solid tag itself and comes
    first, each probe returns the mover, which counts as free: the sweep
    runs its full length, calls nothing, and leaves the mover overlapping
    the wall. *)
Lemma own_collider_first_hides_wall :
  (moveXAbsolute 0 (Js.of_Z 5) Examples.level_self_solid).1 = Ret true /\
  Entity.x <$> World.entities (moveXAbsolute 0 (Js.of_Z 5) Examples.level_self_solid).2 !! 0%nat
    = Some (Js.of_Z 5) /\
  World.log (moveXAbsolute 0 (Js.of_Z 5) Examples.level_self_solid).2 = [] /\
  (overlap 0 1 (moveXAbsolute 0 (Js.of_Z 5) Examples.level_self_solid).2).1 = Ret true.
Proof.
  split; [vm_compute; reflexivity|]. split; [by_eval|].
  split; vm_compute; reflexivity.
Qed.

End PhysicsFacts.
(** ** The remainder of the mover *)

Section RemainderFacts.

Import ColliderOps Physics PhysicsFields.









End RemainderFacts.


(** * Further properties of the engine *)

(** ** Calc *)

Section CalcMore.

(** X1: [Calc.approach] with a step that is not negative moves [n] toward
    the target and never past it: the result lies between the two, it is
    the target once the target is within one step, and a full step
    otherwise. *)
Theorem approach_never_passes (n target step : Qc) :
  Js.zero <= step ->
  let r := Calc.approach n target step in
  (n <= target -> n <= r /\ r <= target) /\
  (target <= n -> target <= r /\ r <= n) /\
  (n - target <= step -> target - n <= step -> r = target) /\
  (step < target - n -> r = n + step) /\
  (step < n - target -> r = n - step).
Proof.
  intros Hs r. subst r. unfold Calc.approach, Js.max, Js.min.
  repeat case_decide; repeat split; intros; try reflexivity; qc_lra.
Qed.

Lemma approach_never_passes_witness :
  Calc.approach (Js.of_Z 3) (Js.of_Z 10) (Js.of_Z 4) = Js.of_Z 3 + Js.of_Z 4 /\
  Calc.approach (Js.of_Z 9) (Js.of_Z 10) (Js.of_Z 4) = Js.of_Z 10.
Proof.
  split.
  - refine (proj1 (proj2 (proj2 (proj2
              (approach_never_passes (Js.of_Z 3) (Js.of_Z 10) (Js.of_Z 4) _)))) _); by_eval.
  - refine (proj1 (proj2 (proj2
              (approach_never_passes (Js.of_Z 9) (Js.of_Z 10) (Js.of_Z 4) _))) _ _); by_eval.
Defined.

End CalcMore.

(** ** Matrix and Vector *)

Section MatrixMore.

Import Matrix.

Ltac matrix_ring :=
  unfold multiply, identity, fromScale, fromTranslation, scale, translate, Js.zero;
  cbn [m0 m1 m2 m3 m4 m5 m6 m7 m8]; f_equal; ring.





(** [translate] and [scale] are [multiply] by the matrices that
    [fromTranslation] and [fromScale] build. *)
Lemma translate_scale_as_multiply (m : t) (x y : Qc) :
  translate m x y = multiply m (fromTranslation x y) /\
  scale m x y = multiply m (fromScale x y).
Proof.
  destruct m. split; matrix_ring.
Qed.








End MatrixMore.


(** ** Color *)

Section ColorMore.

Import Color.

Lemma valid_set_r (c : t) (v : Qc) : valid c -> valid (set_r c v).
Proof. intros (Hr & Hg & Hb & Ha). repeat split; try tauto; apply channel_range. Qed.
Lemma valid_set_g (c : t) (v : Qc) : valid c -> valid (set_g c v).
Proof. intros (Hr & Hg & Hb & Ha). repeat split; try tauto; apply channel_range. Qed.
Lemma valid_set_b (c : t) (v : Qc) : valid c -> valid (set_b c v).
Proof. intros (Hr & Hg & Hb & Ha). repeat split; try tauto; apply channel_range. Qed.
Lemma valid_set_a (c : t) (v : Qc) : valid c -> valid (set_a c v).
Proof. intros (Hr & Hg & Hb & Ha). repeat split; try tauto; apply channel_range. Qed.

Lemma all_valid_insert (h : heap) (l : nat) (c : t) :
  all_valid h -> valid c -> all_valid (<[l := c]> h).
Proof.
  intros Hh Hc l' c'. destruct (decide (l = l')) as [<-|Hne].
  - rewrite lookup_insert_eq. by intros [= <-].
  - rewrite lookup_insert_ne by done. apply Hh.
Qed.

Lemma assign_valid (h h' : heap) (this : nat) (f : t -> t) :
  all_valid h -> (forall c, valid c -> valid (f c)) ->
  assign this f h = Some h' -> all_valid h'.
Proof.
  intros Hh Hf. unfold assign. destruct (h !! this) as [c|] eqn:Hc; [|discriminate].
  intros [= <-]. apply all_valid_insert; [exact Hh|]. apply Hf. by apply (Hh this).
Qed.

Lemma set_valid (h h' : heap) (this l : nat) (vr vg vb va : Qc) :
  all_valid h -> set this vr vg vb va h = Some (l, h') -> all_valid h'.
Proof.
  intros Hh. unfold set. destruct (h !! this) as [c|] eqn:Hc; [|discriminate].
  intros [= <- <-]. apply all_valid_insert; [exact Hh|].
  apply valid_set_a, valid_set_b, valid_set_g, valid_set_r. by apply (Hh this).
Qed.

(** X5: Whatever numbers are passed, the constructor and the methods that
    store into a color ([set], [copy], [lerp], [mult], [clone]) leave
    every component of every color in the unit interval. *)
Theorem colors_stay_valid (h : heap) (this a b : nat) (vr vg vb va p alpha : Qc)
    (r g bl al : option Qc) :
  all_valid h ->
  all_valid (new r g bl al h).2 /\
  (forall l h', set this vr vg vb va h = Some (l, h') -> all_valid h') /\
  (forall l h', copy this a h = Some (l, h') -> all_valid h') /\
  (forall l h', lerp this a b p h = Some (l, h') -> all_valid h') /\
  (forall l h', mult this alpha h = Some (l, h') -> all_valid h') /\
  (forall l h', clone this h = Some (l, h') -> all_valid h').
Proof.
  intros Hh.
  assert (Hnew : forall r g bl al, all_valid (new r g bl al h).2).
  { intros. unfold new. cbn [snd]. apply all_valid_insert; [exact Hh|].
    apply valid_set_a, valid_set_b, valid_set_g, valid_set_r.
    repeat split; by_eval. }
  split; [apply Hnew|].
  split; [intros l h'; by apply set_valid|].
  split.
  { intros l h'. unfold copy. destruct (h !! a); [|discriminate]. by apply set_valid. }
  split.
  { intros l h'. unfold lerp. intros Hl.
    repeat match type of Hl with
    | (?o ≫= _) = Some _ => destruct o eqn:?; cbn [mbind option_bind] in Hl; [|discriminate]
    end.
    injection Hl as <- <-.
    repeat match goal with
    | H : assign _ _ ?h0 = Some ?h1, Hv : all_valid ?h0 |- _ =>
        apply (assign_valid h0 h1 _ _ Hv) in H;
        [| intros; first [by apply valid_set_r | by apply valid_set_g
                         | by apply valid_set_b | by apply valid_set_a]]
    end.
    assumption. }
  split.
  { intros l h'. unfold mult. destruct (h !! this); [|discriminate]. by apply set_valid. }
  intros l h'. unfold clone.
  destruct (new None None None None h) as [l0 h0] eqn:Hn.
  intros Hc. unfold copy in Hc. destruct (h0 !! this); [|discriminate].
  apply set_valid in Hc; [exact Hc|].
  specialize (Hnew None None None None). by rewrite Hn in Hnew.
Qed.

Lemma colors_stay_valid_witness :
  all_valid (new (Some (Js.of_Z 200)) None (Some (Js.of_Z (-3))) (Some Js.half) ∅).2.
Proof.
  refine (proj1 (colors_stay_valid ∅ 0 0 0 1 1 1 1 1 1 _ _ _ _ _)).
  intros l c. rewrite lookup_empty. discriminate.
Defined.

(** X6: [clone] is the way to a new color: it returns a reference the heap
    did not hold, the new color has the receiver's components, and the
    receiver and every other color are as before. *)
Theorem clone_is_fresh_copy (h : heap) (this : nat) (c : t) :
  h !! this = Some c ->
  valid c ->
  let l := fresh (dom h) in
  clone this h = Some (l, <[l := c]> h) /\
  h !! l = None /\ l <> this /\
  (<[l := c]> h) !! this = Some c.
Proof.
  intros Hc Hv l.
  assert (Hl : h !! l = None) by (apply not_elem_of_dom, is_fresh).
  assert (Hne : l <> this) by (intros ->; congruence).
  split; [|split; [exact Hl|split; [exact Hne|by rewrite lookup_insert_ne]]].
  unfold clone, new, copy. fold l. rewrite lookup_insert_ne by done. rewrite Hc.
  unfold set. rewrite lookup_insert_eq. rewrite insert_insert_eq.
  destruct Hv as (Hr & Hg & Hb & Ha). destruct c as [cr cg cb ca].
  unfold set_a, set_b, set_g, set_r. cbn [r g b a] in *.
  by rewrite !channel_id.
Qed.

Lemma clone_is_fresh_copy_witness :
  clone 0 {[ 0%nat := white ]}
    = Some (fresh (dom ({[ 0%nat := white ]} : heap)),
            <[fresh (dom ({[ 0%nat := white ]} : heap)) := white]> {[ 0%nat := white ]}).
Proof.
  refine (proj1 (clone_is_fresh_copy {[ 0%nat := white ]} 0 white _ _)).
  - reflexivity.
  - repeat split; by_eval.
Defined.

End ColorMore.


(** ** Rectangle *)

Section RectangleMore.

Import Rectangle.

Ltac crop_split f :=
  unfold f, left, right, top, bottom, set_x, set_y, set_width, set_height;
  cbn [x y width height] in *;
  case_decide; cbn [x y width height] in *.

(** X7: The horizontal half of [cropRect] is right for every target of
    non-negative width, wherever the target lies: a rectangle of
    non-negative width that reaches the target's left edge comes out
    between the target's left and right edges with a non-negative width,
    and one that is already between them keeps its [x] and [width]. *)
Theorem cropRect_clips_horizontally (this r : t) :
  Js.zero <= width this -> Js.zero <= width r -> left this <= right r ->
  left this <= left (cropRect this r) /\
  right (cropRect this r) <= right this /\
  Js.zero <= width (cropRect this r) /\
  (left this <= left r -> right r <= right this ->
   x (cropRect this r) = x r /\ width (cropRect this r) = width r).
Proof.
  destruct this as [tx ty tw th], r as [rx ry rw rh].
  unfold left, right. cbn [x y width height]. intros Hw Hrw Hl.
  unfold cropRect; cbv zeta.
  crop_split crop_left; (crop_split crop_top);
    (crop_split crop_past_right); (crop_split crop_past_bottom);
    (crop_split crop_right); (crop_split crop_bottom);
    unfold left, right; cbn [x y width height];
    repeat split; intros; try reflexivity; try qc_lra.
Qed.

Lemma cropRect_clips_horizontally_witness :
  left Examples.target <= left (cropRect Examples.target Examples.below) /\
  right (cropRect Examples.target Examples.below) <= right Examples.target.
Proof.
  destruct (cropRect_clips_horizontally Examples.target Examples.below)
    as (H1 & H2 & _); [by_eval | by_eval | by_eval |].
  split; [exact H1 | exact H2].
Defined.

End RectangleMore.


(** ** Physics: speed limits *)

Section SpeedFacts.

Import ColliderOps Physics PhysicsFields.

Lemma update_mover_ret (this : nat) (f : PhysicsFields.t -> PhysicsFields.t) (w : World.t)
    (c : Collider.t) (p : PhysicsFields.t) :
  World.colliders w !! this = Some c -> Collider.mover c = Some p ->
  update_mover this f w
    = (Ret tt, World.set_colliders w (<[this := Collider.set_mover c (f p)]> (World.colliders w))).
Proof.
  intros Hc Hp. unfold update_mover.
  rewrite (bind_ret _ _ _ _ _ (get_mover_ret _ _ _ _ Hc Hp)).
  by rewrite (update_collider_ret _ _ _ _ Hc).
Qed.

(** Two writes to the mover in a row. *)
Lemma update_mover_twice (this : nat) (f g : PhysicsFields.t -> PhysicsFields.t) (w : World.t)
    (c : Collider.t) (p : PhysicsFields.t) :
  World.colliders w !! this = Some c -> Collider.mover c = Some p ->
  (update_mover this f ;;; update_mover this g) w
    = (Ret tt, World.set_colliders w
                 (<[this := Collider.set_mover c (g (f p))]> (World.colliders w))).
Proof.
  intros Hc Hp. rewrite (bind_ret _ _ _ _ _ (update_mover_ret _ f _ _ _ Hc Hp)).
  erewrite update_mover_ret; [| cbn; apply lookup_insert_eq | reflexivity].
  cbn. by rewrite insert_insert_eq.
Qed.




Lemma maxspeed_comp_bounds (s m : Qc) :
  Js.zero <= m ->
  - m <= maxspeed_comp s m /\ maxspeed_comp s m <= m /\
  (- m <= s -> s <= m -> maxspeed_comp s m = s) /\
  maxspeed_comp (maxspeed_comp s m) m = maxspeed_comp s m.
Proof.
  intros Hm. unfold maxspeed_comp, Js.min, Js.max.
  repeat case_decide; repeat split; intros; try reflexivity; qc_lra.
Qed.

(** X9: [maxspeed] with limits that are not negative brings each speed
    component into [[-limit, limit]], leaves a component that is already
    there, and changes nothing else. *)
Theorem maxspeed_clamps (this : nat) (w : World.t) (c : Collider.t)
    (p : PhysicsFields.t) (mx my : Qc) :
  World.colliders w !! this = Some c ->
  Collider.mover c = Some p ->
  Js.zero <= mx -> Js.zero <= my ->
  let sx := maxspeed_comp (Vector.x (speed p)) mx in
  let sy := maxspeed_comp (Vector.y (speed p)) my in
  maxspeed this (Some mx) (Some my) w
    = (Ret tt,
       World.set_colliders w
         (<[this := Collider.set_mover c (set_speed p (Vector.Mk sx sy))]>
            (World.colliders w))) /\
  - mx <= sx /\ sx <= mx /\ - my <= sy /\ sy <= my /\
  (- mx <= Vector.x (speed p) -> Vector.x (speed p) <= mx -> sx = Vector.x (speed p)) /\
  (- my <= Vector.y (speed p) -> Vector.y (speed p) <= my -> sy = Vector.y (speed p)).
Proof.
  intros Hc Hp Hmx Hmy sx sy.
  destruct (maxspeed_comp_bounds (Vector.x (speed p)) mx Hmx) as (X1 & X2 & X3 & _).
  destruct (maxspeed_comp_bounds (Vector.y (speed p)) my Hmy) as (Y1 & Y2 & Y3 & _).
  split; [|tauto].
  unfold maxspeed. rewrite (update_mover_twice this _ _ w c p Hc Hp). reflexivity.
Qed.

Lemma maxspeed_clamps_witness :
  exists w',
    maxspeed 0 (Some (Js.of_Z 10)) (Some (Js.of_Z 10)) Examples.ghost_level = (Ret tt, w') /\
    (speed <$> (World.colliders w' !! 0%nat ≫= Collider.mover))
      = Some (Vector.Mk (Js.of_Z 10) Js.zero).
Proof.
  destruct (maxspeed_clamps 0 Examples.ghost_level Examples.ghost _
              (Js.of_Z 10) (Js.of_Z 10) eq_refl eq_refl
              ltac:(by_eval) ltac:(by_eval)) as (Hrun & _).
  eexists. split; [exact Hrun|].
  by_eval.
Defined.

(** [stop] zeroes speed and remainder, and a tick of a mover whose speed
    is zero changes nothing: after [stop] the mover stays where it is
    until it is given a speed again. *)
Lemma stop_then_update_rests (this : nat) (w : World.t) (c : Collider.t)
    (p : PhysicsFields.t) :
  World.colliders w !! this = Some c ->
  Collider.mover c = Some p ->
  let zero := Vector.Mk Js.zero Js.zero in
  let w' := World.set_colliders w
              (<[this := Collider.set_mover c (set_remainder (set_speed p zero) zero)]>
                 (World.colliders w)) in
  stop this w = (Ret tt, w') /\
  update this w' = (Ret tt, w') /\
  (speed p = zero -> update this w = (Ret tt, w)).
Proof.
  intros Hc Hp zero w'.
  assert (Hrest : forall w0 c0 p0,
            World.colliders w0 !! this = Some c0 -> Collider.mover c0 = Some p0 ->
            speed p0 = zero -> update this w0 = (Ret tt, w0)).
  { intros w0 c0 p0 Hc0 Hp0 Hs. unfold update.
    rewrite (bind_ret _ _ _ _ _ (get_mover_ret _ _ _ _ Hc0 Hp0)).
    rewrite Hs. cbn [Vector.x Vector.y zero]. rewrite decide_True by reflexivity.
    unfold bind at 1. unfold ret at 1.
    rewrite (bind_ret _ _ _ _ _ (get_mover_ret _ _ _ _ Hc0 Hp0)).
    rewrite Hs. cbn [Vector.x Vector.y zero]. by rewrite decide_True by reflexivity. }
  split; [|split].
  - unfold stop. by rewrite (update_mover_twice this _ _ w c p Hc Hp).
  - apply (Hrest w' (Collider.set_mover c (set_remainder (set_speed p zero) zero))
                   (set_remainder (set_speed p zero) zero));
      [apply lookup_insert_eq | reflexivity | reflexivity].
  - intros Hs. by apply (Hrest w c p).
Qed.

End SpeedFacts.


(** ** Physics: the sweep as a whole *)

Section SweepFacts.

Import ColliderOps Physics PhysicsFields.

Lemma round_sign (amount : Qc) :
  (amount < Js.zero -> Js.round amount <= Js.zero) /\
  (Js.zero < amount -> Js.zero <= Js.round amount) /\
  (amount = Js.zero -> Js.round amount = Js.zero).
Proof.
  unfold Js.round, Js.floor. change Js.zero with (Js.of_Z 0).
  split; [|split].
  - intros Ha. apply of_Z_le.
    assert (Hq : (this (amount + Js.half) < inject_Z 1)%Q).
    { change (Js.of_Z 0) with Js.zero in Ha. change (inject_Z 1) with 1%Q. qc_lra. }
    pose proof (Qfloor_le (this (amount + Js.half)%Qc)) as Hf.
    assert (Hlt : (inject_Z (Qfloor (this (amount + Js.half)%Qc)) < inject_Z 1)%Q)
      by (eapply Qle_lt_trans; eassumption).
    rewrite <- Zlt_Qlt in Hlt. lia.
  - intros Ha. apply of_Z_le.
    rewrite <- (Qfloor_Z 0). apply Qfloor_resp_le.
    change (Js.of_Z 0) with Js.zero in Ha. change (inject_Z 0) with 0%Q. qc_lra.
  - intros ->. by_eval.
Qed.

(** The unit steps of a full sweep add up to the rounded amount. *)
Lemma steps_times_sign (amount : Qc) :
  Js.of_Z (Z.of_nat (steps amount)) * Calc.sign amount = Js.round amount.
Proof.
  rewrite steps_exact. destruct (round_sign amount) as (Hneg & Hpos & Hzero).
  unfold Calc.sign, Js.abs.
  destruct (decide (amount < Js.zero)) as [Ha|Ha].
  - specialize (Hneg Ha). case_decide as Hr; [ring|].
    assert (Hz : Js.round amount = Js.zero) by (apply Qcle_antisym; [exact Hneg | qc_lra]).
    rewrite Hz. unfold Js.zero. ring.
  - destruct (decide (Js.zero < amount)) as [Hb|Hb].
    + specialize (Hpos Hb). case_decide as Hr; [exfalso; qc_lra | ring].
    + assert (Hz : amount = Js.zero) by (apply Qcle_antisym; qc_lra).
      rewrite (Hzero Hz). case_decide; unfold Js.zero; ring.
Qed.

Lemma sweep_all_free (ax : axis) (this e : nat) (sign : Qc) (c : Collider.t)
    (p : PhysicsFields.t) (n : nat) :
  forall (w : World.t) (ent : Entity.t),
  World.colliders w !! this = Some c -> Collider.mover c = Some p ->
  World.entities w !! e = Some ent ->
  (forall i, (i < n)%nat ->
     exists r, (probe ax this (solids p) sign (Nat.iter i (advance ax e sign) w)).1 = Ret r /\
       (r = None \/
        exists h hc', r = Some h /\ World.colliders w !! h = Some hc' /\
                      Collider._entity hc' = Some e)) ->
  sweep ax this (Some e) sign n w = (Ret true, Nat.iter n (advance ax e sign) w).
Proof.
  induction n as [|n IH]; intros w ent Hc Hp He Hfree; [reflexivity|].
  destruct (Hfree 0%nat ltac:(lia)) as (r & Hr & Hf).
  rewrite (sweep_free ax this e sign n w c p ent r Hc Hp He Hr Hf).
  rewrite Nat.iter_succ_r.
  apply (IH (advance ax e sign w) (moved ax sign ent)).
  - by rewrite advance_colliders.
  - exact Hp.
  - by apply advance_entity.
  - intros i Hi. destruct (Hfree (S i) ltac:(lia)) as (r' & Hr' & Hf').
    rewrite Nat.iter_succ_r in Hr'. exists r'. split; [exact Hr'|].
    by rewrite advance_colliders.
Qed.

(** X10: With solids, when every probe of the sweep is free (no hit, or a hit
    on a collider of the mover's own entity), [moveXAbsolute] (or
    [moveYAbsolute]) returns true, the entity has moved by exactly
    [Math.round(amount)] on the axis, and the mover, the other axis and
    the log of callback calls are as before. *)
Theorem moveAbsolute_completes (ax : axis) (this e : nat) (w : World.t)
    (c : Collider.t) (p : PhysicsFields.t) (ent : Entity.t) (amount : Qc) :
  World.colliders w !! this = Some c ->
  Collider.mover c = Some p ->
  Collider._entity c = Some e ->
  World.entities w !! e = Some ent ->
  solids p <> [] ->
  let sign := Calc.sign amount in
  let at_step i := Nat.iter i (advance ax e sign) w in
  (forall i, (i < steps amount)%nat ->
     exists r, (probe ax this (solids p) sign (at_step i)).1 = Ret r /\
       (r = None \/
        exists h hc', r = Some h /\ World.colliders w !! h = Some hc' /\
                      Collider._entity hc' = Some e)) ->
  let w' := at_step (steps amount) in
  moveAbsolute ax this amount w = (Ret true, w') /\
  World.colliders w' = World.colliders w /\
  World.log w' = World.log w /\
  exists ent',
    World.entities w' !! e = Some ent' /\
    comp ax (Entity.position ent') = comp ax (Entity.position ent) + Js.round amount /\
    match ax with
    | Horizontal => Entity.y ent' = Entity.y ent
    | Vertical => Entity.x ent' = Entity.x ent
    end.
Proof.
  intros Hc Hp He Hent Hs sign at_step Hfree w'.
  split; [|split; [|split]].
  - unfold moveAbsolute.
    rewrite (bind_ret _ _ _ _ _ (get_collider_ret _ _ _ Hc)).
    rewrite (bind_ret _ _ _ _ _ (get_mover_ret _ _ _ _ Hc Hp)).
    rewrite decide_False by (destruct (solids p); [done | cbn; lia]).
    rewrite He. by apply (sweep_all_free ax this e sign c p (steps amount) w ent).
  - apply iter_advance_colliders.
  - apply iter_advance_log.
  - destruct (iter_advance_entity ax e sign (steps amount) w ent Hent)
      as (ent' & Hk & _ & Hx & Ho).
    exists ent'. split; [exact Hk|]. split; [|exact Ho].
    rewrite Hx. unfold sign. by rewrite steps_times_sign.
Qed.

Lemma moveAbsolute_completes_witness :
  moveXAbsolute 0 (Js.of_Z 2) Examples.level
    = (Ret true, Nat.iter (steps (Js.of_Z 2))
                   (advance Horizontal 0 (Calc.sign (Js.of_Z 2))) Examples.level).
Proof.
  refine (proj1 (moveAbsolute_completes Horizontal 0 0 Examples.level Examples.player _ _
                   (Js.of_Z 2) eq_refl eq_refl eq_refl eq_refl _ _)).
  - discriminate.
  - intros i Hi. exists None. split; [|by left].
    change (steps (Js.of_Z 2)) with 2%nat in Hi.
    destruct i as [|[|i]]; [vm_compute; reflexivity | vm_compute; reflexivity | lia].
Defined.





End SweepFacts.


(** ** ObjectList: slots, counting, traversal *)

Section ObjectListMore.

Import ObjectList.

Context {T : Type} `{EqDecision T}.

Implicit Types (this : ObjectList.t T) (o : option T) (l : list (option T)).

(** [indexOf] finds the first slot that holds the value. *)
Lemma indexOf_Some o l i :
  indexOf o l = Some i <-> l !! i = Some o /\ forall j, (j < i)%nat -> l !! j <> Some o.
Proof.
  revert i. induction l as [|s l IH]; intros i; cbn [indexOf].
  - split; [discriminate | intros [Hl _]; discriminate].
  - destruct (decide (s = o)) as [->|Hne].
    + split.
      * intros [= <-]. split; [reflexivity | intros j Hj; lia].
      * intros [Hi Hfirst]. destruct i as [|i]; [reflexivity|].
        exfalso. apply (Hfirst 0%nat); [lia | reflexivity].
    + destruct (indexOf o l) as [k|] eqn:Hk; cbn.
      * split.
        -- intros [= <-]. destruct (proj1 (IH k) eq_refl) as [Hl Hf].
           split; [exact Hl|]. intros [|j] Hj; cbn; [congruence | apply Hf; lia].
        -- intros [Hi Hfirst]. destruct i as [|i]; cbn in Hi; [congruence|].
           f_equal. assert (Some k = Some i) as [= ->]; [|reflexivity].
           apply IH. split; [exact Hi|]. intros j Hj. apply (Hfirst (S j)). lia.
      * split; [discriminate|]. intros [Hi Hfirst].
        destruct i as [|i]; cbn in Hi; [congruence|].
        assert (None = Some i) as Habs; [|discriminate].
        apply IH. split; [exact Hi|]. intros j Hj. apply (Hfirst (S j)). lia.
Qed.

Lemma indexOf_None o l : indexOf o l = None <-> o ∉ l.
Proof.
  induction l as [|s l IH]; cbn [indexOf].
  - split; [intros _; apply not_elem_of_nil | reflexivity].
  - destruct (decide (s = o)) as [->|Hne].
    + split; [discriminate | intros Hn; exfalso; apply Hn; left].
    + rewrite not_elem_of_cons. destruct (indexOf o l); cbn.
      * split; [discriminate|]. intros [_ Hn]. by pose proof (proj2 IH Hn).
      * split; [|reflexivity]. intros _. split; [congruence | by apply IH].
Qed.

(** An object found at slot [i] is found by [indexOf] at or before [i]. *)
Lemma indexOf_le o l i :
  l !! i = Some o -> exists k, indexOf o l = Some k /\ (k <= i)%nat.
Proof.
  intros Hi. destruct (indexOf o l) as [k|] eqn:Hk.
  - exists k. split; [reflexivity|].
    destruct (proj1 (indexOf_Some _ _ _) Hk) as [_ Hf].
    destruct (decide (k <= i)%nat) as [|Hgt]; [assumption|].
    exfalso. apply (Hf i); [lia | exact Hi].
  - exfalso. apply (proj1 (indexOf_None _ _) Hk).
    by eapply list_elem_of_lookup_2.
Qed.

(** X12: [remove] of an object that the list holds sets the first slot that
    holds it to [null] and touches no other slot: every other entry keeps
    its index, so a traversal in progress is not disturbed.  It counts
    one down, sets [dirty] and returns true.  [remove] of an object the
    list does not hold returns false and changes nothing. *)
Theorem remove_keeps_slots this (x : T) :
  (forall i, indexOf (Some x) (objects this) = Some i ->
     objects this !! i = Some (Some x) /\
     (forall j, (j < i)%nat -> objects this !! j <> Some (Some x)) /\
     (remove this (Some x)).2 = true /\
     objects (remove this (Some x)).1 !! i = Some None /\
     (forall j, j <> i -> objects (remove this (Some x)).1 !! j = objects this !! j) /\
     length (objects (remove this (Some x)).1) = length (objects this) /\
     _count (remove this (Some x)).1 = (_count this - 1)%Z /\
     dirty (remove this (Some x)).1 = true /\
     unsorted (remove this (Some x)).1 = unsorted this) /\
  (Some x ∉ objects this -> remove this (Some x) = (this, false)).
Proof.
  split.
  - intros i Hi. destruct (proj1 (indexOf_Some _ _ _) Hi) as [Hl Hf].
    rewrite (remove_found _ _ _ Hi). cbn [fst snd objects _count dirty unsorted].
    split; [exact Hl|]. split; [exact Hf|]. split; [reflexivity|].
    split; [apply list_lookup_insert_eq; by eapply lookup_lt_Some|].
    split; [intros j Hj; by apply list_lookup_insert_ne|].
    split; [apply length_insert|]. repeat split.
  - intros Hn. apply remove_absent. by apply indexOf_None.
Qed.

(** *** The count *)

Lemma live_insert_None l i (x : T) :
  l !! i = Some (Some x) ->
  S (length (live (<[i := None]> l))) = length (live l).
Proof.
  revert i. induction l as [|s l IH]; intros [|i] Hi; try discriminate.
  - cbn in Hi. injection Hi as ->. reflexivity.
  - cbn in Hi. specialize (IH i Hi).
    change (<[S i := None]> (s :: l)) with (s :: <[i := None]> l).
    destruct s as [v|]; cbn; unfold live in IH; cbn in IH; lia.
Qed.

Lemma live_replicate_None n : live (replicate n (@None T)) = [].
Proof. induction n as [|n IH]; [reflexivity | exact IH]. Qed.

Lemma filter_live l : filter (fun s => is_Some s) l = Some <$> live l.
Proof.
  induction l as [|[v|] l IH].
  - reflexivity.
  - rewrite filter_cons_True by eauto. unfold live in *. cbn. by rewrite IH.
  - rewrite filter_cons_False by (intros [? ?]; discriminate). exact IH.
Qed.

Lemma live_fmap_Some (k : list T) : live (Some <$> k) = k.
Proof. induction k as [|v k IH]; [reflexivity|]. unfold live in *. cbn. by rewrite IH. Qed.

Lemma live_nil_length l : length (live l) = 0%nat -> live l = [].
Proof. destruct (live l); [reflexivity | discriminate]. Qed.

(** The swap of [sort] permutes the slots. *)
Lemma swap_Permutation l j (a b : option T) :
  l !! j = Some a -> l !! S j = Some b ->
  <[S j := a]> (<[j := b]> l) ≡ₚ l.
Proof.
  revert j. induction l as [|s l IH]; intros [|j] Ha Hb; try discriminate.
  - destruct l as [|s' l]; [discriminate|]. cbn in Ha, Hb.
    injection Ha as ->. injection Hb as ->. cbn. apply perm_swap.
  - cbn in Ha, Hb.
    change (<[S (S j) := a]> (<[S j := b]> (s :: l)))
      with (s :: <[S j := a]> (<[j := b]> l)).
    apply perm_skip. by apply IH.
Qed.

Lemma sift_Permutation cmp j l : sift cmp j l ≡ₚ l.
Proof.
  revert l. induction j as [|j IH]; intros l; [reflexivity|]. cbn [sift].
  destruct (l !! j) as [[lo|]|] eqn:Hlo; try reflexivity.
  destruct (l !! S j) as [[hi|]|] eqn:Hhi; try reflexivity.
  case_decide; [|reflexivity].
  rewrite IH. by apply swap_Permutation.
Qed.

(** A [null] slot is never moved by the swaps. *)
Lemma sift_nulls cmp j l i : sift cmp j l !! i = Some None <-> l !! i = Some None.
Proof.
  revert l. induction j as [|j IH]; intros l; [reflexivity|]. cbn [sift].
  destruct (l !! j) as [[lo|]|] eqn:Hlo; try reflexivity.
  destruct (l !! S j) as [[hi|]|] eqn:Hhi; try reflexivity.
  case_decide; [|reflexivity].
  rewrite IH.
  destruct (decide (i = S j)) as [->|Hn1].
  - rewrite list_lookup_insert_eq
      by (rewrite length_insert; by eapply lookup_lt_Some).
    rewrite Hhi. split; discriminate.
  - rewrite list_lookup_insert_ne by congruence.
    destruct (decide (i = j)) as [->|Hn2].
    + rewrite list_lookup_insert_eq by (by eapply lookup_lt_Some).
      rewrite Hlo. split; discriminate.
    + by rewrite list_lookup_insert_ne by congruence.
Qed.

Lemma sort_loop_Permutation cmp (ks : list nat) l :
  foldl (fun l i => sift cmp (i + 1) l) l ks ≡ₚ l.
Proof.
  revert l. induction ks as [|i ks IH]; intros l; [reflexivity|].
  cbn [foldl]. rewrite IH. apply sift_Permutation.
Qed.

Lemma sort_loop_nulls cmp (ks : list nat) l i :
  foldl (fun l i => sift cmp (i + 1) l) l ks !! i = Some None <-> l !! i = Some None.
Proof.
  revert l. induction ks as [|k ks IH]; intros l; [reflexivity|].
  cbn [foldl]. rewrite IH. apply sift_nulls.
Qed.

(** X13: [sort] rearranges the slots and loses or invents nothing: the slots
    afterwards are a permutation of the slots before, and the [null]
    slots are where they were. *)
Theorem sort_permutes this cmp :
  objects (sort this cmp) ≡ₚ objects this /\
  (forall i, objects (sort this cmp) !! i = Some None <-> objects this !! i = Some None) /\
  _count (sort this cmp) = _count this /\
  dirty (sort this cmp) = dirty this.
Proof.
  unfold sort. destruct (unsorted this); cbn [objects _count dirty].
  - split; [apply sort_loop_Permutation|].
    split; [intros i; apply sort_loop_nulls|]. split; reflexivity.
  - split; [reflexivity|]. split; [intros i; reflexivity|]. split; reflexivity.
Qed.

(** X14: As long as every [add] is of an object and every [remove] of an
    object, [count] is the number of live objects: [add], [remove],
    [clear], [clean] and [sort] all keep it so. *)
Theorem count_is_live_length this (x : T) cmp :
  counted this ->
  counted (add this (Some x)) /\
  counted (remove this (Some x)).1 /\
  counted (clear this) /\
  counted (clean this) /\
  counted (sort this cmp).
Proof.
  unfold counted. intros Hc. repeat split.
  - cbn [add objects _count]. unfold live. rewrite omap_app, length_app. cbn.
    unfold live in Hc. lia.
  - destruct (indexOf (Some x) (objects this)) as [i|] eqn:Hi.
    + rewrite (remove_found _ _ _ Hi). cbn [fst objects _count].
      destruct (proj1 (indexOf_Some _ _ _) Hi) as [Hl _].
      pose proof (live_insert_None _ _ _ Hl). lia.
    + by rewrite (remove_absent _ _ Hi).
  - cbn [clear objects _count]. by rewrite live_replicate_None.
  - unfold clean. destruct (dirty this); [|exact Hc].
    unfold count. case_decide; cbn [objects _count].
    + assert (length (live (objects this)) = 0%nat) as Hz by lia.
      rewrite Hc, Hz. reflexivity.
    + by rewrite splice_nulls_filter, filter_live, live_fmap_Some.
  - unfold sort. destruct (unsorted this); [|exact Hc]. cbn [objects _count].
    rewrite Hc. unfold live. by rewrite sort_loop_Permutation.
Qed.

(** X15: [remove(null)] on a list with a [null] slot finds that slot: it
    returns true and counts one down although no object left the list,
    so [count] no longer is the number of live objects. *)
Theorem remove_null_miscounts this :
  None ∈ objects this ->
  counted this ->
  (remove this None).2 = true /\
  objects (remove this None).1 = objects this /\
  _count (remove this None).1 = (_count this - 1)%Z /\
  ~ counted (remove this None).1.
Proof.
  intros Hin Hc. apply list_elem_of_lookup_1 in Hin as [i Hi].
  destruct (indexOf_le _ _ _ Hi) as (k & Hk & _).
  destruct (proj1 (indexOf_Some _ _ _) Hk) as [Hl _].
  rewrite (remove_found _ _ _ Hk). cbn [fst snd objects _count].
  rewrite (list_insert_id _ _ _ Hl).
  repeat split. unfold counted in *. cbn [objects _count]. lia.
Qed.

(** X16: On a dirty list whose count is right, [clean] leaves exactly the
    live objects, in their order, and no [null] slot. *)
Theorem clean_compacts this :
  dirty this = true ->
  counted this ->
  objects (clean this) = Some <$> live (objects this) /\
  live (objects (clean this)) = live (objects this) /\
  _count (clean this) = _count this.
Proof.
  unfold counted. intros Hd Hc. unfold clean. rewrite Hd. unfold count.
  case_decide; cbn [objects _count].
  - assert (live (objects this) = []) as Hz by (apply live_nil_length; lia).
    rewrite Hz. repeat split.
  - rewrite splice_nulls_filter, filter_live, live_fmap_Some. repeat split.
Qed.

(** *** Traversal *)

Section Each.

Context {U : Type} (visit : T -> U -> U) (removes stops : T -> U -> bool).

Lemma visiting_length x (s : U * ObjectList.t T) :
  length (objects (visiting visit removes stops x s).1.2) = length (objects s.2).
Proof.
  unfold visiting. cbn [fst snd]. destruct (removes x s.1); [|reflexivity].
  unfold remove. destruct (indexOf _ _); [|reflexivity].
  cbn [fst objects]. apply length_insert.
Qed.

Lemma visiting_drop x i (s : U * ObjectList.t T) :
  objects s.2 !! i = Some (Some x) ->
  drop (S i) (objects (visiting visit removes stops x s).1.2) = drop (S i) (objects s.2).
Proof.
  intros Hi. unfold visiting. cbn [fst snd]. destruct (removes x s.1); [|reflexivity].
  destruct (indexOf_le _ _ _ Hi) as (k & Hk & Hle).
  rewrite (remove_found _ _ _ Hk). cbn [fst objects].
  apply drop_insert_lt. lia.
Qed.

Lemma each_from_visits rounds i u this :
  rounds = (length (objects this) - i)%nat ->
  (each_from (visiting visit removes stops) rounds i (u, this)).1
    = visits visit stops (live (drop i (objects this))) u /\
  length (objects (each_from (visiting visit removes stops) rounds i (u, this)).2)
    = length (objects this).
Proof.
  revert i u this. induction rounds as [|r IH]; intros i u this Hr.
  - cbn [each_from fst snd]. rewrite drop_ge by lia. split; reflexivity.
  - destruct (lookup_lt_is_Some_2 (objects this) i ltac:(lia)) as [s Hs].
    rewrite (drop_S _ _ _ Hs). cbn [each_from snd]. rewrite Hs.
    destruct s as [x|].
    + pose proof (visiting_length x (u, this)) as Hlen.
      pose proof (visiting_drop x i (u, this) Hs) as Hdrop.
      destruct (visiting visit removes stops x (u, this)) as [[u' this'] b] eqn:Hv.
      cbn [fst snd] in Hlen, Hdrop.
      assert (u' = visit x u /\ b = stops x u) as [-> ->].
      { unfold visiting in Hv. cbn [fst snd] in Hv. by injection Hv as <- _ <-. }
      change (live (Some x :: drop (S i) (objects this)))
        with (x :: live (drop (S i) (objects this))).
      cbn [visits]. destruct (stops x u).
      * cbn [fst snd]. split; [reflexivity | exact Hlen].
      * destruct (IH (S i) (visit x u) this' ltac:(lia)) as [IH1 IH2].
        rewrite IH1, IH2, Hdrop. split; [reflexivity | exact Hlen].
    + change (live (None :: drop (S i) (objects this)))
        with (live (drop (S i) (objects this))).
      apply IH. lia.
Qed.

Lemma each_from_untouched rounds i u this :
  (forall x u', removes x u' = false) ->
  (each_from (visiting visit removes stops) rounds i (u, this)).2 = this.
Proof.
  intros Hno. revert i u. induction rounds as [|r IH]; intros i u; [reflexivity|].
  cbn [each_from snd]. destruct (objects this !! i) as [[x|]|]; try apply IH.
  unfold visiting. cbn [fst snd]. rewrite Hno.
  destruct (stops x u); [reflexivity | apply IH].
Qed.

(** X17: [each] calls the callback on exactly the live objects, in slot
    order, up to the first call that returns false, also when the
    callback removes the object it is called on; the number of slots
    does not change, and a traversal that removes nothing leaves the
    list as it was. *)
Theorem each_visits_live u this :
  (each (visiting visit removes stops) (u, this)).1
    = visits visit stops (live (objects this)) u /\
  length (objects (each (visiting visit removes stops) (u, this)).2)
    = length (objects this) /\
  ((forall x u', removes x u' = false) ->
   (each (visiting visit removes stops) (u, this)).2 = this).
Proof.
  unfold each. cbn [snd].
  destruct (each_from_visits (length (objects this)) 0 u this ltac:(lia)) as [H1 H2].
  split; [exact H1|]. split; [exact H2|].
  apply each_from_untouched.
Qed.

Lemma each_from_removing rounds i u this :
  (forall x u', removes x u' = true) ->
  (forall x u', stops x u' = false) ->
  rounds = (length (objects this) - i)%nat ->
  (forall j, (j < i)%nat -> (j < length (objects this))%nat ->
     objects this !! j = Some None) ->
  objects (each_from (visiting visit removes stops) rounds i (u, this)).2
    = replicate (length (objects this)) None /\
  _count (each_from (visiting visit removes stops) rounds i (u, this)).2
    = (_count this - Z.of_nat (length (live (drop i (objects this)))))%Z.
Proof.
  intros Hrm Hst. revert i u this. induction rounds as [|r IH]; intros i u this Hr Hnull.
  - cbn [each_from snd]. rewrite drop_ge by lia. split; [|cbn; lia].
    apply list_eq. intros j. destruct (decide (j < length (objects this))%nat).
    + rewrite lookup_replicate_2 by assumption. apply Hnull; lia.
    + rewrite !(proj2 (lookup_ge_None _ _)); rewrite ?length_replicate; [reflexivity|lia|lia].
  - destruct (lookup_lt_is_Some_2 (objects this) i ltac:(lia)) as [s Hs].
    rewrite (drop_S _ _ _ Hs). cbn [each_from snd]. rewrite Hs.
    destruct s as [x|].
    + assert (indexOf (Some x) (objects this) = Some i) as Hi.
      { apply indexOf_Some. split; [exact Hs|]. intros j Hj.
        rewrite Hnull by (try apply (lookup_lt_Some _ _ _ Hs); lia). discriminate. }
      assert (visiting visit removes stops x (u, this)
              = (visit x u,
                 Mk (<[i := None]> (objects this)) (unsorted this) true (_count this - 1),
                 false)) as Hv.
      { unfold visiting. cbn [fst snd]. by rewrite Hrm, Hst, (remove_found _ _ _ Hi). }
      rewrite Hv.
      edestruct (IH (S i) (visit x u)) as [IH1 IH2]; cycle 2.
      * rewrite IH1, IH2. cbn [objects _count]. rewrite length_insert.
        rewrite drop_insert_lt by lia.
        change (live (Some x :: drop (S i) (objects this)))
          with (x :: live (drop (S i) (objects this))).
        split; [reflexivity | cbn [length]; lia].
      * cbn [objects]. rewrite length_insert. lia.
      * cbn [objects]. rewrite length_insert. intros j Hj Hjl.
        destruct (decide (j = i)) as [->|Hne].
        -- by apply list_lookup_insert_eq.
        -- rewrite list_lookup_insert_ne by congruence. apply Hnull; lia.
    + change (live (None :: drop (S i) (objects this)))
        with (live (drop (S i) (objects this))).
      apply IH; [lia|]. intros j Hj Hjl.
      destruct (decide (j = i)) as [->|Hne]; [exact Hs | apply Hnull; lia].
Qed.

(** X18: A traversal whose callback removes each object it is called on and
    never stops ([removeAll] of an entity and of a scene) leaves every
    slot [null] and counts down once per live object. *)
Theorem each_removing_empties u this :
  (forall x u', removes x u' = true) ->
  (forall x u', stops x u' = false) ->
  objects (each (visiting visit removes stops) (u, this)).2
    = replicate (length (objects this)) None /\
  _count (each (visiting visit removes stops) (u, this)).2
    = (_count this - Z.of_nat (length (live (objects this))))%Z /\
  (counted this -> _count (each (visiting visit removes stops) (u, this)).2 = 0%Z).
Proof.
  intros Hrm Hst. unfold each. cbn [snd].
  assert (forall j, (j < 0)%nat -> (j < length (objects this))%nat ->
            objects this !! j = Some None) as Hnone by (intros j Hj; lia).
  destruct (each_from_removing (length (objects this)) 0 u this Hrm Hst
              (eq_sym (Nat.sub_0_r _)) Hnone) as [H1 H2].
  split; [exact H1|].
  rewrite drop_0 in H2. split; [exact H2|].
  intros Hc. rewrite H2. unfold counted in Hc. lia.
Qed.

End Each.

End ObjectListMore.

Lemma remove_keeps_slots_witness :
  ObjectList.objects (ObjectList.remove Examples.two_added (Some 1%nat)).1 !! 1%nat
    = ObjectList.objects Examples.two_added !! 1%nat.
Proof.
  pose proof (remove_keeps_slots Examples.two_added 1%nat) as [Hfound _].
  destruct (Hfound 0%nat) as (_ & _ & _ & _ & Hother & _); [reflexivity|].
  apply Hother. lia.
Defined.

Lemma count_is_live_length_witness :
  ObjectList.counted Examples.one_removed /\
  ObjectList.counted (ObjectList.clean Examples.one_removed).
Proof.
  assert (Hc : ObjectList.counted Examples.one_removed) by reflexivity.
  split; [exact Hc|].
  exact (proj1 (proj2 (proj2 (proj2
           (count_is_live_length Examples.one_removed 0%nat (fun _ _ => Js.zero) Hc))))).
Defined.

Lemma remove_null_miscounts_witness :
  ~ ObjectList.counted (ObjectList.remove Examples.one_removed None).1.
Proof.
  apply (remove_null_miscounts Examples.one_removed).
  - apply (bool_decide_unpack _). vm_compute. exact I.
  - reflexivity.
Defined.

Lemma clean_compacts_witness :
  ObjectList.objects (ObjectList.clean Examples.one_removed) = [Some 2%nat].
Proof.
  exact (proj1 (clean_compacts Examples.one_removed eq_refl eq_refl)).
Defined.

Lemma each_removing_empties_witness :
  ObjectList.objects
    (ObjectList.each
       (ObjectList.visiting (fun o u => o :: u) (fun _ _ => true) (fun _ _ => false))
       ([], Examples.one_removed)).2
  = [None; None].
Proof.
  exact (proj1 (each_removing_empties (fun o u => o :: u) (fun _ _ => true) (fun _ _ => false)
                  [] Examples.one_removed (fun _ _ => eq_refl) (fun _ _ => eq_refl))).
Defined.


(** *** The order after [sort] *)

Section SortOrder.

Import ObjectList.

Context {T : Type} `{EqDecision T}.

Variable compare : T -> T -> Qc.

(** A comparison never ranks two objects each above the other. *)
Hypothesis compare_asym :
  forall a b, Js.zero < compare a b -> ~ Js.zero < compare b a.

Implicit Types (l : list (option T)).

Lemma swap_lookup l j (x y : option T) t :
  l !! j = Some x -> l !! S j = Some y ->
  <[S j := x]> (<[j := y]> l) !! t
    = if decide (t = S j) then Some x else if decide (t = j) then Some y else l !! t.
Proof.
  intros Hx Hy.
  pose proof (lookup_lt_Some _ _ _ Hx). pose proof (lookup_lt_Some _ _ _ Hy).
  destruct (decide (t = S j)) as [->|Hn1].
  - apply list_lookup_insert_eq. by rewrite length_insert.
  - rewrite list_lookup_insert_ne by congruence.
    destruct (decide (t = j)) as [->|Hn2].
    + by apply list_lookup_insert_eq.
    + by rewrite list_lookup_insert_ne by congruence.
Qed.

(** While the object from slot [m] sifts down and stands at [j], every
    adjacent pair of the first [m + 1] slots is in order except perhaps
    the pair it forms with its lower neighbour; and its two neighbours
    are in order with each other. *)
Lemma sift_orders (m j : nat) l :
  (forall t a b, (S t <= m)%nat -> S t <> j ->
     l !! t = Some (Some a) -> l !! S t = Some (Some b) -> ~ Js.zero < compare a b) ->
  (forall t a b, S t = j -> (S j <= m)%nat ->
     l !! t = Some (Some a) -> l !! S j = Some (Some b) -> ~ Js.zero < compare a b) ->
  forall t a b, (S t <= m)%nat ->
    sift compare j l !! t = Some (Some a) ->
    sift compare j l !! S t = Some (Some b) ->
    ~ Js.zero < compare a b.
Proof.
  revert l. induction j as [|j IH]; intros l Hpairs Hbridge t a b Ht Ha Hb.
  - cbn [sift] in Ha, Hb. by eapply (Hpairs t).
  - cbn [sift] in Ha, Hb.
    assert (forall lo hi, l !! j = Some (Some lo) -> l !! S j = Some (Some hi) ->
              ~ Js.zero < compare lo hi ->
              l !! t = Some (Some a) -> l !! S t = Some (Some b) ->
              ~ Js.zero < compare a b) as Hstop.
    { intros lo hi Hlo Hhi Hle Ha' Hb'.
      destruct (decide (t = j)) as [->|Hne].
      - rewrite Hlo in Ha'. rewrite Hhi in Hb'. congruence.
      - eapply (Hpairs t); [lia | congruence | eassumption | eassumption]. }
    assert ((l !! j = Some None \/ l !! j = None \/ l !! S j = Some None
                       \/ l !! S j = None) ->
              l !! t = Some (Some a) -> l !! S t = Some (Some b) ->
              ~ Js.zero < compare a b) as Hnull.
    { intros Hor Ha' Hb'.
      destruct (decide (t = j)) as [->|Hne].
      - destruct Hor as [Hor|[Hor|[Hor|Hor]]]; congruence.
      - eapply (Hpairs t); [lia | congruence | eassumption | eassumption]. }
    destruct (l !! j) as [[lo|]|] eqn:Hlo;
      [|apply Hnull; auto|apply Hnull; auto].
    destruct (l !! S j) as [[hi|]|] eqn:Hhi;
      [|apply Hnull; auto|apply Hnull; auto].
    destruct (decide (Js.zero < compare lo hi)) as [Hgt|Hle];
      [|by apply (Hstop lo hi)].
    clear Hstop Hnull.
    apply (IH (<[S j := Some lo]> (<[j := Some hi]> l))) with (t := t); try assumption.
    + intros t' a' b' Ht' Hne' Ha' Hb'.
      rewrite (swap_lookup _ _ _ _ _ Hlo Hhi) in Ha'.
      rewrite (swap_lookup _ _ _ _ _ Hlo Hhi) in Hb'.
      destruct (decide (t' = S j)) as [->|Hn1].
      * injection Ha' as <-.
        destruct (decide (S (S j) = S j)) as [|_]; [lia|].
        destruct (decide (S (S j) = j)) as [|_]; [lia|].
        eapply (Hbridge j); [reflexivity | lia | exact Hlo | exact Hb'].
      * destruct (decide (t' = j)) as [->|Hn2].
        -- injection Ha' as <-.
           destruct (decide (S j = S j)) as [_|]; [|congruence].
           injection Hb' as <-. by apply compare_asym.
        -- destruct (decide (S t' = S j)) as [|_]; [lia|].
           destruct (decide (S t' = j)) as [|_]; [lia|].
           eapply (Hpairs t'); [lia | lia | exact Ha' | exact Hb'].
    + intros t' a' b' Hj' Hm' Ha' Hb'. subst j.
      rewrite (swap_lookup _ _ _ _ _ Hlo Hhi) in Ha'.
      rewrite (swap_lookup _ _ _ _ _ Hlo Hhi) in Hb'.
      destruct (decide (t' = S (S t'))) as [|_]; [lia|].
      destruct (decide (t' = S t')) as [|_]; [lia|].
      destruct (decide (S (S t') = S (S t'))) as [_|]; [|congruence].
      injection Hb' as <-.
      eapply (Hpairs t'); [lia | lia | exact Ha' | exact Hlo].
Qed.

Lemma sort_loop_orders (c s : nat) l :
  (forall t a b, (S t <= s)%nat ->
     l !! t = Some (Some a) -> l !! S t = Some (Some b) -> ~ Js.zero < compare a b) ->
  forall t a b, (S t <= s + c)%nat ->
    foldl (fun l i => sift compare (i + 1) l) l (seq s c) !! t = Some (Some a) ->
    foldl (fun l i => sift compare (i + 1) l) l (seq s c) !! S t = Some (Some b) ->
    ~ Js.zero < compare a b.
Proof.
  revert s l. induction c as [|c IH]; intros s l Hpre t a b Ht Ha Hb.
  - cbn [seq foldl] in Ha, Hb. eapply (Hpre t); [lia | eassumption | eassumption].
  - cbn [seq foldl] in Ha, Hb.
    eapply (IH (S s) (sift compare (s + 1) l)); [| |exact Ha|exact Hb]; [|lia].
    intros t' a' b' Ht'. apply (sift_orders (s + 1) (s + 1) l); [| |lia].
    + intros t2 a2 b2 Ht2 Hne2. apply Hpre. lia.
    + intros; lia.
Qed.

(** X19: After [sort] of an unsorted list, any two objects in adjacent slots
    are in order: the comparison does not rank the lower one above the
    upper one.  Objects on either side of a [null] slot are not
    compared. *)
Theorem sort_orders_neighbours (this : ObjectList.t T) :
  unsorted this = true ->
  forall i a b,
    objects (sort this compare) !! i = Some (Some a) ->
    objects (sort this compare) !! S i = Some (Some b) ->
    ~ Js.zero < compare a b.
Proof.
  intros Hu i a b Ha Hb. unfold sort in Ha, Hb. rewrite Hu in Ha, Hb.
  cbn [objects] in Ha, Hb.
  pose proof (lookup_lt_Some _ _ _ Hb) as Hlt.
  rewrite (Permutation_length (sort_loop_Permutation compare _ _)) in Hlt.
  eapply (sort_loop_orders (length (objects this) - 1) 0 (objects this));
    [| |exact Ha|exact Hb]; [|lia].
  intros t a' b' Ht. lia.
Qed.

End SortOrder.

Lemma sort_orders_neighbours_witness :
  ObjectList.objects (ObjectList.sort Examples.two_added (fun a b => Js.of_Z (Z.of_nat b) - Js.of_Z (Z.of_nat a)))
    = [Some 2%nat; Some 1%nat] /\
  ~ Js.zero < Js.of_Z (Z.of_nat 1) - Js.of_Z (Z.of_nat 2).
Proof.
  split; [reflexivity|].
  apply (sort_orders_neighbours (fun a b => Js.of_Z (Z.of_nat b) - Js.of_Z (Z.of_nat a)))
    with (this := Examples.two_added) (i := 0%nat) (a := 2%nat) (b := 1%nat).
  - intros a b Hab Hba. unfold Js.zero, Js.of_Z in *. qc_lra.
  - reflexivity.
  - reflexivity.
  - reflexivity.
Defined.


(** ** Hitgrid: the tile map *)

Section HitgridMore.

Import Hitgrid.

Implicit Types (map : gmap Z (gmap Z bool)) (col : gmap Z bool).

Lemma elem_of_range (lo hi i : Z) : i ∈ range lo hi <-> (lo <= i < hi)%Z.
Proof.
  unfold range. rewrite list_elem_of_fmap. split.
  - intros (k & -> & Hk). apply elem_of_seq in Hk. lia.
  - intros Hi. exists (Z.to_nat (i - lo)). split; [lia|].
    apply elem_of_seq. lia.
Qed.

Lemma set_column_lookup (solid : bool) (ys : list Z) col (y : Z) :
  set_column solid ys col !! y
    = if decide (y ∈ ys) then (if solid then Some true else None) else col !! y.
Proof.
  unfold set_column. revert col. induction ys as [|y0 ys IH]; intros col.
  - cbn [foldl]. destruct (decide (y ∈ [])) as [Hin|_]; [|reflexivity].
    by apply not_elem_of_nil in Hin.
  - cbn [foldl]. rewrite IH.
    destruct (decide (y ∈ ys)) as [Hin|Hnin].
    + rewrite decide_True by (by right). reflexivity.
    + destruct (decide (y = y0)) as [->|Hne].
      * rewrite decide_True by left.
        destruct solid; [apply lookup_insert_eq | apply lookup_delete_eq].
      * rewrite decide_False by (rewrite elem_of_cons; tauto).
        destruct solid; [by apply lookup_insert_ne | by apply lookup_delete_ne].
Qed.

Lemma set_loop_has (solid : bool) (xs ys : list Z) map (x y : Z) :
  has (foldl (fun map x =>
                let map := match map !! x with None => <[x := ∅]> map | Some _ => map end in
                match map !! x with
                | Some col => <[x := set_column solid ys col]> map
                | None => map
                end) map xs) x y
    = if decide (x ∈ xs /\ y ∈ ys) then solid else has map x y.
Proof.
  revert map. induction xs as [|x0 xs IH]; intros map.
  - cbn [foldl]. rewrite decide_False; [reflexivity|].
    intros [Hin _]. by apply not_elem_of_nil in Hin.
  - cbn [foldl]. rewrite IH. clear IH.
    set (map1 := match map !! x0 with None => <[x0 := ∅]> map | Some _ => map end).
    assert (exists col0, map1 !! x0 = Some col0 /\
              (forall y', col0 !! y' = Some true <-> has map x0 y' = true) /\
              (forall x', x' <> x0 -> map1 !! x' = map !! x')) as (col0 & Hc0 & Hsame & Hother).
    { subst map1. unfold has. destruct (map !! x0) as [c|] eqn:Hx0.
      - exists c. split; [exact Hx0|]. split; [|reflexivity].
        intros y'. destruct (c !! y') as [[|]|]; split; congruence.
      - exists ∅. split; [apply lookup_insert_eq|]. split.
        + intros y'. rewrite lookup_empty. split; discriminate.
        + intros x' Hne. by apply lookup_insert_ne. }
    cbv zeta. rewrite Hc0.
    destruct (decide (x ∈ xs /\ y ∈ ys)) as [[Hx Hy]|Hn].
    { rewrite decide_True; [reflexivity|]. split; [by right | exact Hy]. }
    destruct (decide (x = x0)) as [->|Hne].
    + unfold has at 1. rewrite lookup_insert_eq, set_column_lookup.
      destruct (decide (y ∈ ys)) as [Hy|Hny].
      * rewrite decide_True by (split; [left | exact Hy]). by destruct solid.
      * rewrite decide_False by tauto.
        destruct (col0 !! y) as [[|]|] eqn:Hy0.
        -- symmetry. by apply Hsame.
        -- destruct (has map x0 y) eqn:Hh; [|reflexivity].
           apply Hsame in Hh. congruence.
        -- destruct (has map x0 y) eqn:Hh; [|reflexivity].
           apply Hsame in Hh. congruence.
    + rewrite decide_False by (rewrite elem_of_cons; tauto).
      unfold has. rewrite lookup_insert_ne by congruence.
      by rewrite Hother.
Qed.

(** X20: After [set(solid, tx, ty, columns, rows)] a tile inside the
    rectangle of [columns] by [rows] tiles at [(tx, ty)] is solid exactly
    when [solid] is, and every tile outside it is as it was.  A count
    left out or zero stands for one; a negative count makes the
    rectangle empty. *)
Theorem set_then_has map (solid : bool) (tx ty : Z) (columns rows : option Z) (x y : Z) :
  has (set map solid tx ty columns rows) x y
    = if decide ((tx <= x < tx + or_one columns)%Z /\ (ty <= y < ty + or_one rows)%Z)
      then solid else has map x y.
Proof.
  unfold set. rewrite set_loop_has.
  destruct (decide (x ∈ range tx (tx + or_one columns) /\ y ∈ range ty (ty + or_one rows)))
    as [Hin|Hnin].
  - rewrite decide_True; [reflexivity|]. by rewrite <- !elem_of_range.
  - rewrite decide_False; [reflexivity|]. by rewrite <- !elem_of_range.
Qed.

(** [has(tx, ty, columns, rows)] is true exactly when some tile of the
    rectangle is solid. *)
Lemma has_in_some_tile map (tx ty : Z) (columns rows : option Z) :
  has_in map tx ty columns rows = true <->
  exists x y, (tx <= x < tx + or_one columns)%Z /\ (ty <= y < ty + or_one rows)%Z /\
              has map x y = true.
Proof.
  unfold has_in. rewrite existsb_exists. split.
  - intros (x & Hx & Hcol). apply list_elem_of_In, elem_of_range in Hx.
    destruct (map !! x) as [col|] eqn:Hmx; [|discriminate].
    apply existsb_exists in Hcol as (y & Hy & Hcy).
    apply list_elem_of_In, elem_of_range in Hy.
    apply bool_decide_eq_true in Hcy.
    exists x, y. split; [exact Hx|]. split; [exact Hy|].
    unfold has. by rewrite Hmx, Hcy.
  - intros (x & y & Hx & Hy & Hh). exists x.
    split; [by apply list_elem_of_In, elem_of_range|].
    unfold has in Hh. destruct (map !! x) as [col|]; [|discriminate].
    apply existsb_exists. exists y.
    split; [by apply list_elem_of_In, elem_of_range|].
    apply bool_decide_eq_true. by destruct (col !! y) as [[|]|].
Qed.

End HitgridMore.


(** ** Hitbox against Hitgrid *)

Section GridOverlap.

Import ColliderOps.

Lemma floor_le_iff (q : Qc) (z : Z) : (Qfloor q <= z)%Z <-> q < Js.of_Z (z + 1).
Proof.
  unfold Qclt. rewrite of_Z_this. split.
  - intros Hle. eapply Qlt_le_trans; [apply Qlt_floor|].
    rewrite <- Zle_Qle. lia.
  - intros Hlt.
    assert (inject_Z (Qfloor q) < inject_Z (z + 1))%Q as Hz
      by (eapply Qle_lt_trans; [apply Qfloor_le | exact Hlt]).
    rewrite <- Zlt_Qlt in Hz. lia.
Qed.

Lemma lt_ceiling_iff (q : Qc) (z : Z) : (z < Qceiling q)%Z <-> Js.of_Z z < q.
Proof.
  unfold Qclt. rewrite of_Z_this. split.
  - intros Hlt. eapply Qle_lt_trans; [|apply Qceiling_lt].
    rewrite <- Zle_Qle. lia.
  - intros Hlt.
    assert (inject_Z z < inject_Z (Qceiling q))%Q as Hz
      by (eapply Qlt_le_trans; [exact Hlt | apply Qle_ceiling]).
    by rewrite <- Zlt_Qlt in Hz.
Qed.

Lemma this_sub_div (a b c : Qc) :
  (this ((a - b) / c)%Qc == (this a - this b) / this c)%Q.
Proof.
  unfold Qcdiv, Qcmult, Qcinv, Qcminus, Qcplus, Qcopp, Q2Qc. cbn [this].
  rewrite !Qred_correct. reflexivity.
Qed.

Lemma floor_sub_div (a b c : Qc) :
  Qfloor ((this a - this b) / this c) = Qfloor (this ((a - b) / c)%Qc).
Proof. apply Qfloor_comp. symmetry. apply this_sub_div. Qed.

Lemma ceiling_sub_div (a b c : Qc) :
  Qceiling ((this a - this b) / this c) = Qceiling (this ((a - b) / c)%Qc).
Proof. apply Qceiling_comp. symmetry. apply this_sub_div. Qed.

Lemma pos_nonzero (d : Qc) : Js.zero < d -> d <> Js.zero.
Proof. intros Hd Heq. apply Qclt_not_eq in Hd. congruence. Qed.

Lemma lt_div_iff (n d k : Qc) : Js.zero < d -> (n / d < k <-> n < k * d).
Proof.
  intros Hd.
  pose proof (pos_nonzero d Hd) as Hne.
  assert (n / d * d = n) as Hq by (unfold Js.zero in Hne; field; exact Hne).
  revert Hq. generalize (n / d). intros q <-. unfold Js.zero in Hd.
  split; intros Hlt.
  - by apply Qcmult_lt_compat_r.
  - destruct (Qclt_le_dec q k) as [|Hge]; [assumption|]. exfalso.
    apply (Qcmult_le_compat_r _ _ d) in Hge; [|by apply Qclt_le_weak].
    by apply Qcle_not_lt in Hge.
Qed.

Lemma div_lt_iff (n d k : Qc) : Js.zero < d -> (k < n / d <-> k * d < n).
Proof.
  intros Hd.
  pose proof (pos_nonzero d Hd) as Hne.
  assert (n / d * d = n) as Hq by (unfold Js.zero in Hne; field; exact Hne).
  revert Hq. generalize (n / d). intros q <-. unfold Js.zero in Hd.
  split; intros Hlt.
  - by apply Qcmult_lt_compat_r.
  - destruct (Qclt_le_dec k q) as [|Hge]; [assumption|]. exfalso.
    apply (Qcmult_le_compat_r _ _ d) in Hge; [|by apply Qclt_le_weak].
    by apply Qcle_not_lt in Hge.
Qed.

(** X21: With tiles of positive size, the default test of a hitbox against a
    grid returns, and returns true exactly when the grid has a solid
    tile whose rectangle overlaps the box, on open intervals as between
    two hitboxes: tile [(x, y)] covers
    [tileWidth] by [tileHeight] from
    [(grid.x + x * tileWidth, grid.y + y * tileHeight)]. *)
Theorem hitbox_hitgrid_tiles (es : gmap nat Entity.t) (a b : Collider.t)
    (la ta wa ha tileWidth tileHeight : Qc) (map : gmap Z (gmap Z bool)) :
  Collider.shape_of a = Collider.Hitbox la ta wa ha ->
  Collider.shape_of b = Collider.Hitgrid tileWidth tileHeight map ->
  Js.zero < tileWidth -> Js.zero < tileHeight ->
  let pa := Collider.scenePosition es a in
  let grid := Collider.scenePosition es b in
  let sceneLeft := Vector.x pa + la in
  let sceneRight := Vector.x pa + la + wa in
  let sceneTop := Vector.y pa + ta in
  let sceneBottom := Vector.y pa + ta + ha in
  exists v, hitbox_hitgrid es a b = Ret v /\
    (v = true <->
     exists x y : Z, Hitgrid.has map x y = true /\
       Vector.x grid + Js.of_Z x * tileWidth < sceneRight /\
       sceneLeft < Vector.x grid + Js.of_Z (x + 1) * tileWidth /\
       Vector.y grid + Js.of_Z y * tileHeight < sceneBottom /\
       sceneTop < Vector.y grid + Js.of_Z (y + 1) * tileHeight).
Proof.
  intros Ha Hb Hw Hh. cbv zeta.
  unfold hitbox_hitgrid. rewrite Ha, Hb.
  rewrite decide_False.
  2:{ intros [Hz|Hz]; [by apply (pos_nonzero _ Hw) | by apply (pos_nonzero _ Hh)]. }
  unfold Hitbox.sceneLeft, Hitbox.sceneTop, Hitbox.sceneRight, Hitbox.sceneBottom.
  rewrite Ha. cbn [default from_option]. unfold id. cbv zeta.
  eexists. split; [reflexivity|].
  rewrite !floor_sub_div, !ceiling_sub_div.
  rewrite bool_decide_eq_true, Exists_exists.
  assert (forall n k : Qc, n < Vector.x (Collider.scenePosition es b) + k * tileWidth
                           <-> n - Vector.x (Collider.scenePosition es b) < k * tileWidth) as Hx1
    by (intros; split; intros; qc_lra).
  assert (forall n k : Qc, Vector.x (Collider.scenePosition es b) + k * tileWidth < n
                           <-> k * tileWidth < n - Vector.x (Collider.scenePosition es b)) as Hx2
    by (intros; split; intros; qc_lra).
  assert (forall n k : Qc, n < Vector.y (Collider.scenePosition es b) + k * tileHeight
                           <-> n - Vector.y (Collider.scenePosition es b) < k * tileHeight) as Hy1
    by (intros; split; intros; qc_lra).
  assert (forall n k : Qc, Vector.y (Collider.scenePosition es b) + k * tileHeight < n
                           <-> k * tileHeight < n - Vector.y (Collider.scenePosition es b)) as Hy2
    by (intros; split; intros; qc_lra).
  split.
  - intros (x & Hx & Hcol). apply Exists_exists in Hcol as (y & Hy & Hxy).
    apply elem_of_range in Hx as [Hx_lo Hx_hi]. apply elem_of_range in Hy as [Hy_lo Hy_hi].
    exists x, y. split; [exact Hxy|].
    rewrite Hx1, Hx2, Hy1, Hy2.
    rewrite <- !lt_div_iff, <- !div_lt_iff by assumption.
    rewrite <- !floor_le_iff, <- !lt_ceiling_iff. tauto.
  - intros (x & y & Hxy & Hbounds).
    rewrite Hx1, Hx2, Hy1, Hy2 in Hbounds.
    rewrite <- !lt_div_iff, <- !div_lt_iff in Hbounds by assumption.
    rewrite <- !floor_le_iff, <- !lt_ceiling_iff in Hbounds.
    exists x. split; [apply elem_of_range; tauto|].
    apply Exists_exists. exists y. split; [apply elem_of_range; tauto | exact Hxy].
Qed.

End GridOverlap.

Lemma hitbox_hitgrid_tiles_witness :
  ColliderOps.hitbox_hitgrid ∅
    (Hitbox.new (Examples.q 0) (Examples.q 0) (Examples.q 10) (Examples.q 10))
    (Collider.Mk None (Vector.Mk Js.zero Js.zero) []
       (Collider.Hitgrid (Examples.q 8) (Examples.q 8) (Hitgrid.set ∅ true 1 1 None None))
       None)
  = Ret true.
Proof.
  destruct (hitbox_hitgrid_tiles ∅
              (Hitbox.new (Examples.q 0) (Examples.q 0) (Examples.q 10) (Examples.q 10))
              (Collider.Mk None (Vector.Mk Js.zero Js.zero) []
                 (Collider.Hitgrid (Examples.q 8) (Examples.q 8)
                    (Hitgrid.set ∅ true 1 1 None None))
                 None)
              _ _ _ _ _ _ _ eq_refl eq_refl ltac:(by_eval) ltac:(by_eval))
    as (v & Hv & Hiff).
  rewrite Hv. f_equal. apply Hiff. exists 1%Z, 1%Z.
  split; [reflexivity|]. repeat split; by_eval.
Defined.


(** ** Scene: the tag index *)

Section SceneMore.

Import Scene.







(** X23: Neither [_trackCollider] nor [_untrackCollider] leaves a tag with an
    empty list behind. *)
Theorem scene_index_stays_tidy (s : t) (collider : nat) (tag : string) :
  no_empty_list s ->
  no_empty_list (_trackCollider s collider tag) /\
  no_empty_list (_untrackCollider s collider tag).
Proof.
  intros Htidy. split.
  - intros tg l. unfold _trackCollider. cbn [colliders].
    destruct (decide (tg = tag)) as [->|Hne].
    + rewrite lookup_insert_eq. intros [= <-]. by destruct (allCollidersInTag s tag).
    + rewrite lookup_insert_ne by congruence. apply Htidy.
  - intros tg l. unfold _untrackCollider.
    destruct (colliders s !! tag) as [l0|] eqn:Hl0; [|apply Htidy].
    destruct (Js.index_of collider l0) as [i|]; [|apply Htidy].
    cbv zeta. case_decide as Hlen; cbn [colliders].
    + destruct (decide (tg = tag)) as [->|Hne].
      * by rewrite lookup_delete_eq.
      * rewrite lookup_delete_ne by congruence. apply Htidy.
    + destruct (decide (tg = tag)) as [->|Hne].
      * rewrite lookup_insert_eq. intros [= <-] Hnil. rewrite Hnil in Hlen. cbn in Hlen. lia.
      * rewrite lookup_insert_ne by congruence. apply Htidy.
Qed.


End SceneMore.


Lemma scene_index_stays_tidy_witness :
  Scene.no_empty_list (Scene._untrackCollider (Scene.Mk {[ "solid" := [1%nat] ]}) 1 "solid").
Proof.
  apply (scene_index_stays_tidy (Scene.Mk {[ "solid" := [1%nat] ]}) 1 "solid").
  intros tg l Hl. cbn [Scene.colliders] in Hl. apply lookup_singleton_Some in Hl as [_ <-]. discriminate.
Defined.



(** ** Collider: tags and the scene's index *)

Section TagMore.

Import ColliderOps.







End TagMore.



(** ** Collider: the registry is symmetric *)

Section RegistryMore.

Import ColliderOps.

Lemma cell_ensure_row (x : string) (reg : registry) (tyA tyB : string) :
  cell (match reg !! x with None => <[x := ∅]> reg | Some _ => reg end) tyA tyB
    = cell reg tyA tyB.
Proof.
  destruct (reg !! x) eqn:Hx; [reflexivity|]. unfold cell.
  destruct (decide (tyA = x)) as [->|Hne].
  - rewrite lookup_insert_eq, Hx. cbn. apply lookup_empty.
  - by rewrite lookup_insert_ne by congruence.
Qed.

Lemma cell_insert_row (x y : string) (t : Collider.test) (reg : registry) (tyA tyB : string) :
  cell (<[x := <[y := t]> (row reg x)]> reg) tyA tyB
    = if decide (tyA = x /\ tyB = y) then Some t else cell reg tyA tyB.
Proof.
  unfold cell. destruct (decide (tyA = x)) as [->|Hne].
  - rewrite lookup_insert_eq. cbn. destruct (decide (tyB = y)) as [->|Hne].
    + rewrite lookup_insert_eq. by rewrite decide_True.
    + rewrite lookup_insert_ne by congruence. rewrite decide_False by tauto.
      unfold row. destruct (reg !! x); [reflexivity | apply lookup_empty].
  - rewrite lookup_insert_ne by congruence. by rewrite decide_False by tauto.
Qed.

(** X26: What [overlap] finds after [registerOverlapTest(fromType, toType,
    test)]: the test under [fromType][toType], the test with its
    arguments swapped under [toType][fromType], and under every other
    pair what was there.  When the two types are the same the one cell
    holds the swapped test, which was assigned last. *)
Theorem registerOverlapTest_cells (fromType toType : string) (test : Collider.test)
    (reg : registry) (tyA tyB : string) :
  cell (registerOverlapTest fromType toType test reg) tyA tyB
    = if decide (tyA = toType /\ tyB = fromType) then Some (fun es a b => test es b a)
      else if decide (tyA = fromType /\ tyB = toType) then Some (fun es a b => test es a b)
      else cell reg tyA tyB.
Proof.
  unfold registerOverlapTest. cbv zeta.
  rewrite cell_insert_row. destruct (decide (tyA = toType /\ tyB = fromType)); [reflexivity|].
  rewrite cell_insert_row. destruct (decide (tyA = fromType /\ tyB = toType)); [reflexivity|].
  by rewrite !cell_ensure_row.
Qed.








End RegistryMore.



(** ** Collider: what the queries find *)

Section QueriesMore.

Import ColliderOps.

Lemma overlap_run (this o : nat) (w w1 : World.t) (r : outcome bool) :
  overlap this o w = (r, w1) -> w1 = w.
Proof. apply pure_run, pure_overlap. Qed.



Lemma all_overlaps_filter (this : nat) (ag : list nat) (w w1 : World.t) (l : list nat) :
  all_overlaps this ag w = (Ret l, w1) ->
  l = filter (fun o => hits this o w = true) ag /\
  Forall (fun o => exists v, overlap this o w = (Ret v, w)) ag.
Proof.
  revert l w1. induction ag as [|o rest IH]; intros l w1; cbn [all_overlaps].
  - intros [= <- _]. split; [reflexivity | constructor].
  - intros Hr. apply bind_ret_inv in Hr as (hit & w0 & Ho & Hr).
    pose proof (overlap_run _ _ _ _ _ Ho) as ->.
    apply bind_ret_inv in Hr as (l' & w2 & Hl' & Hr).
    destruct (IH l' _ Hl') as [-> Hall]. injection Hr as <- _.
    split; [|constructor; eauto].
    assert (hits this o w = hit) as Hh by (unfold hits; rewrite Ho; by destruct hit).
    destruct hit.
    + by rewrite filter_cons_True.
    + by rewrite filter_cons_False by (rewrite Hh; discriminate).
Qed.

Lemma all_overlaps_returns (this : nat) (ag : list nat) (w : World.t) :
  Forall (fun o => exists v, overlap this o w = (Ret v, w)) ag ->
  exists l, all_overlaps this ag w = (Ret l, w).
Proof.
  induction 1 as [|o rest [v Hv] _ [l IH]]; cbn [all_overlaps]; [by exists []|].
  rewrite (bind_ret _ _ _ _ _ Hv), (bind_ret _ _ _ _ _ IH). eauto.
Qed.

Lemma all_overlaps_head (this : nat) (ag : list nat) (w w1 : World.t) (l : list nat) :
  all_overlaps this ag w = (Ret l, w1) ->
  first_overlap this ag w = (Ret (head l), w).
Proof.
  revert l w1. induction ag as [|o rest IH]; intros l w1; cbn [all_overlaps first_overlap].
  - by intros [= <- _].
  - intros Hr. apply bind_ret_inv in Hr as (hit & w0 & Ho & Hr).
    pose proof (overlap_run _ _ _ _ _ Ho) as ->.
    apply bind_ret_inv in Hr as (l' & w2 & Hl' & Hr). injection Hr as <- _.
    rewrite (bind_ret _ _ _ _ _ Ho). destruct hit; [reflexivity | by eapply IH].
Qed.

Section OneQuery.

Variables (this : nat) (tag : string) (x y : option Qc) (w : World.t)
  (c : Collider.t) (ag : list nat).

Hypothesis receiver : World.colliders w !! this = Some c.
Hypothesis listed : (against_of this tag w).1 = Ret ag.


(** X29: [collideAll] returns the colliders of the tag's list that overlap
    the receiver moved by [(x, y)], in list order; every collider of the
    list is tested.  It returns whenever all those tests return. *)
Theorem collideAll_lists_hits :
  let scan := translated this c (Js.or_default x Js.zero) (Js.or_default y Js.zero) w in
  (forall l w1, collideAll this tag x y w = (Ret l, w1) ->
     l = filter (fun o => hits this o scan = true) ag /\
     Forall (fun o => exists v, overlap this o scan = (Ret v, scan)) ag) /\
  (Forall (fun o => exists v, overlap this o scan = (Ret v, scan)) ag ->
   exists l, collideAll this tag x y w = (Ret l, w)).
Proof.
  pose proof (against_of_run _ _ _ _ listed) as Ha.
  intros scan. rewrite (collideAll_run _ _ _ _ _ _ _ receiver Ha). cbv zeta. fold scan.
  split.
  - intros l w1 Hr.
    destruct (all_overlaps this ag scan) as [[l'| |] w2] eqn:Hf;
      cbn [fst] in Hr; try discriminate.
    injection Hr as <- _. by eapply all_overlaps_filter.
  - intros Hall. destruct (all_overlaps_returns _ _ _ Hall) as [l Hl].
    rewrite Hl. cbn [fst]. eauto.
Qed.

End OneQuery.

(** X30: When [collideAll] returns a list, [collide] with the same arguments
    returns its first element, or [null] for the empty list, and
    [check] tells whether the list has an element. *)
Theorem collide_is_first_of_collideAll (this : nat) (tag : string) (x y : option Qc)
    (w w1 : World.t) (l : list nat) :
  collideAll this tag x y w = (Ret l, w1) ->
  collide this tag x y w = (Ret (head l), w1) /\
  check this tag x y w = (Ret (bool_decide (is_Some (head l))), w1).
Proof.
  intros Hl.
  assert (collide this tag x y w = (Ret (head l), w1)) as Hc.
  { destruct (against_of this tag w) as [[ag| |] w0] eqn:Ha.
    - destruct (against_of_inv _ _ _ _ _ Ha) as [-> [c Hc]].
      rewrite (collideAll_run _ _ _ _ _ _ _ Hc Ha) in Hl.
      rewrite (collide_run _ _ _ _ _ _ _ Hc Ha). cbv zeta in *.
      destruct (all_overlaps this ag _) as [[l'| |] w2] eqn:Hf;
        cbn [fst] in Hl; try discriminate.
      injection Hl as <- <-.
      by rewrite (all_overlaps_head _ _ _ _ _ Hf).
    - unfold collideAll in Hl. by rewrite (bind_throw _ _ _ _ _ Ha) in Hl.
    - unfold collideAll, bind in Hl. by rewrite Ha in Hl. }
  split; [exact Hc|]. unfold check. by rewrite (bind_ret _ _ _ _ _ Hc).
Qed.

(** [checks] makes the calls of [collides] and fails where it fails; it
    returns true exactly when [collides] returns a collider. *)
Lemma checks_agrees_with_collides (this : nat) (tags : list string) (x y : option Qc)
    (w : World.t) :
  checks this tags x y w
    = (match (collides this tags x y w).1 with
       | Ret r => Ret (bool_decide (is_Some r))
       | Throw e => Throw e
       | Unmodelled => Unmodelled
       end, (collides this tags x y w).2).
Proof.
  revert w. induction tags as [|tg rest IH]; intros w; cbn [checks collides]; [reflexivity|].
  unfold bind. destruct (collide this tg x y w) as [[[h|]| |] w1]; try reflexivity.
  apply IH.
Qed.

End QueriesMore.


Lemma collideAll_lists_hits_witness :
  exists l, ColliderOps.collideAll 0 "solid" (Some (Examples.q 1)) None Examples.level
            = (Ret l, Examples.level).
Proof.
  apply (proj2 (collideAll_lists_hits 0 "solid" (Some (Examples.q 1)) None Examples.level
                  Examples.player [1%nat] eq_refl eq_refl)).
  repeat constructor. exists false.
  apply injective_projections; [vm_compute; reflexivity | apply pure_overlap].
Defined.

Lemma collide_is_first_of_collideAll_witness :
  ColliderOps.collide 0 "solid" (Some (Examples.q 3)) None Examples.level
    = (Ret (Some 1%nat), Examples.level).
Proof.
  assert (ColliderOps.collideAll 0 "solid" (Some (Examples.q 3)) None Examples.level
          = (Ret [1%nat], Examples.level)) as Hall.
  { apply injective_projections; [vm_compute; reflexivity|].
    cbn [snd]. destruct (ColliderOps.collideAll _ _ _ _ _) as [o w1] eqn:E.
    assert (o = Ret [1%nat]) as -> by (change o with (o, w1).1; rewrite <- E; vm_compute; reflexivity).
    cbn [snd]. by eapply collideAll_returns. }
  exact (proj1 (collide_is_first_of_collideAll _ _ _ _ _ _ _ Hall)).
Defined.
